(** * Search engine of chess-algorithm-development: a shallow embedding

    This development embeds the live search of [src/algorithms/the_algorithm.rs]
    ([Algorithm::node_eval_recursive], [Algorithm::next_action],
    [Algorithm::next_action_iterative_deepening], [Algorithm::eval]), the
    extension rule of [src/modules/search_extensions.rs], [eval_no_legal_moves]
    of [src/algorithms/eval.rs] and the outcome combination of
    [src/pitter/logic.rs].

    Modelling choices:
    - the chess rules library ([chess] crate) is an external collaborator and
      is a type class [ChessRules] over abstract [Board] and [Move] types;
    - [f32] scores are only added, compared and passed through [max]/[min] by
      the search; they are integers [Z], with [f32::MIN] and [f32::MAX] as the
      two extreme finite values;
    - [u32] counters are [Z] with their wrap-around written out ([u32_wrap],
      the release-build semantics of [+] and [-]);
    - [HashMap]s are functions into [option];
    - wall-clock time is an oracle [deadline_passed_at]: the answer of the
      n-th call of [utils::passed_deadline]; the state counts the polls;
    - the debug vectors of the ANALYZE module and the timing fields of
      [Stats] are not modelled. *)

From Stdlib Require Import ZArith QArith List Bool Lia Permutation Sorted.
Import ListNotations.
Open Scope Z_scope.

(** ** Chess library types *)

Inductive Color := White | Black.
Inductive BoardStatus := Ongoing | Stalemate | Checkmate.
Inductive Piece := Pawn | Knight | Bishop | Rook | Queen | King.

Inductive Action (Move : Type) :=
| MakeMove (chess_move : Move)
| OfferDraw (c : Color)
| AcceptDraw
| DeclareDraw
| Resign (c : Color).
Arguments MakeMove {Move} chess_move.
Arguments OfferDraw {Move} c.
Arguments AcceptDraw {Move}.
Arguments DeclareDraw {Move}.
Arguments Resign {Move} c.

(** The interface of the [chess] crate that the search uses. *)
Class ChessRules (Board Move : Type) := {
  board_eq_dec : forall a b : Board, {a = b} + {a <> b};
  (** [MoveGen::new_legal], in generation order *)
  new_legal : Board -> list Move;
  make_move_new : Board -> Move -> Board;
  side_to_move : Board -> Color;
  (** [board.checkers().popcnt()] *)
  checkers_popcnt : Board -> Z;
  status : Board -> BoardStatus;
  piece_on : Board -> Z -> option Piece;
  get_source : Move -> Z;
  get_dest : Move -> Z
}.

(** ** Scalars *)

Definition f32_MAX : Z := 340282346638528859811704183484516925440.
Definition f32_MIN : Z := - f32_MAX.

Definition u32_wrap (z : Z) : Z := z mod 2 ^ 32.

(** ** Module flags ([common/constants.rs]) *)

Definition ANALYZE : Z := 1.
Definition ALPHA_BETA : Z := 2.
Definition TRANSPOSITION_TABLE : Z := 4.
Definition SEARCH_EXTENSIONS : Z := 8.
Definition SQUARE_CONTROL_METRIC : Z := 16.
Definition SKIP_BAD_MOVES : Z := 32.

(** Modelled from the spec: the constant of TAPERED_INCREMENTAL_PESTO_PSQT
    is missing from [common/constants.rs]; §3 lists it tenth, bit 9. *)
Definition TAPERED_INCREMENTAL_PESTO_PSQT : Z := 512.

(** [utils::module_enabled] *)
Definition module_enabled (modules module_to_test : Z) : bool :=
  negb (Z.land modules module_to_test =? 0).

(** ** Maps *)

Section Maps.
Context {K V : Type} (eq_dec : forall a b : K, {a = b} + {a <> b}).

Definition map_insert (k : K) (v : V) (m : K -> option V) : K -> option V :=
  fun k' => if eq_dec k' k then Some v else m k'.

End Maps.

(** [*m.get(&k).unwrap_or(&0)] *)
Definition get_or0 {K : Type} (m : K -> option Z) (k : K) : Z :=
  match m k with Some v => v | None => 0 end.

(** ** Records *)

Record TranspositionEntry (Move : Type) := mkTranspositionEntry {
  te_depth : nat;
  te_eval : Z;
  te_next_action : option (Action Move)
}.
Arguments mkTranspositionEntry {Move}.
Arguments te_depth {Move}.
Arguments te_eval {Move}.
Arguments te_next_action {Move}.

Record Evaluation (Move : Type) := mkEvaluation {
  eval : option Z;
  next_action : option (Action Move);
  white_incremental_psqt_eval : option Z;
  black_incremental_psqt_eval : option Z
}.
Arguments mkEvaluation {Move}.
Arguments eval {Move}.
Arguments next_action {Move}.
Arguments white_incremental_psqt_eval {Move}.
Arguments black_incremental_psqt_eval {Move}.

Definition empty_evaluation {Move : Type} : Evaluation Move :=
  mkEvaluation None None None None.

Definition set_eval {Move : Type} (e : Evaluation Move) (v : option Z) :=
  mkEvaluation v (next_action e) (white_incremental_psqt_eval e)
    (black_incremental_psqt_eval e).

(** [utils::Stats] without its timing fields. *)
Record Stats := mkStats {
  alpha_beta_breaks : Z;
  depth_reached : nat;
  max_depth : nat;
  leaves_visited : Z;
  nodes_visited : Z;
  num_plies : Z;
  progress_on_next_layer : Q;
  transposition_table_entries : Z;
  transposition_table_accesses : Z
}.

Definition stats_default : Stats := mkStats 0 0 0 0 0 0 0 0 0.

Definition set_progress (s : Stats) (p : Q) : Stats :=
  mkStats (alpha_beta_breaks s) (depth_reached s) (max_depth s) (leaves_visited s)
    (nodes_visited s) (num_plies s) p (transposition_table_entries s)
    (transposition_table_accesses s).

Definition set_depth (s : Stats) (d : nat) : Stats :=
  mkStats (alpha_beta_breaks s) d (max_depth s) (leaves_visited s)
    (nodes_visited s) (num_plies s) (progress_on_next_layer s)
    (transposition_table_entries s) (transposition_table_accesses s).

Definition set_max_depth (s : Stats) (d : nat) : Stats :=
  mkStats (alpha_beta_breaks s) (depth_reached s) d (leaves_visited s)
    (nodes_visited s) (num_plies s) (progress_on_next_layer s)
    (transposition_table_entries s) (transposition_table_accesses s).

Definition incr_leaves (s : Stats) : Stats :=
  mkStats (alpha_beta_breaks s) (depth_reached s) (max_depth s)
    (u32_wrap (leaves_visited s + 1)) (nodes_visited s) (num_plies s)
    (progress_on_next_layer s) (transposition_table_entries s)
    (transposition_table_accesses s).

Definition incr_nodes (s : Stats) : Stats :=
  mkStats (alpha_beta_breaks s) (depth_reached s) (max_depth s) (leaves_visited s)
    (u32_wrap (nodes_visited s + 1)) (num_plies s) (progress_on_next_layer s)
    (transposition_table_entries s) (transposition_table_accesses s).

Definition incr_breaks (s : Stats) : Stats :=
  mkStats (u32_wrap (alpha_beta_breaks s + 1)) (depth_reached s) (max_depth s)
    (leaves_visited s) (nodes_visited s) (num_plies s) (progress_on_next_layer s)
    (transposition_table_entries s) (transposition_table_accesses s).

Definition incr_tt_entries (s : Stats) : Stats :=
  mkStats (alpha_beta_breaks s) (depth_reached s) (max_depth s) (leaves_visited s)
    (nodes_visited s) (num_plies s) (progress_on_next_layer s)
    (u32_wrap (transposition_table_entries s + 1)) (transposition_table_accesses s).

Definition incr_tt_accesses (s : Stats) : Stats :=
  mkStats (alpha_beta_breaks s) (depth_reached s) (max_depth s) (leaves_visited s)
    (nodes_visited s) (num_plies s) (progress_on_next_layer s)
    (transposition_table_entries s) (u32_wrap (transposition_table_accesses s + 1)).

(** The floating-point evaluation terms. [eval_terms modules board] is the sum
    [controlled_squares / 20 + diff_material + naive_psqt + pawn_structure +
    tapered_pesto / 78] that [Algorithm::eval] returns once its terminal and
    repetition checks have passed (its memoisation maps are keyed by the
    exact bitboards, so the sum is a function of the board).
    [calc_increment board piece location] and [calc_increment_all board color]
    are the two local functions of the TAPERED_INCREMENTAL_PESTO_PSQT block
    (their PESTO tables are kept abstract). *)
Class EvalTerms (Board : Type) := {
  eval_terms : Z -> Board -> Z;
  calc_increment : Board -> nat -> Z -> Z;
  calc_increment_all : Board -> Color -> Z
}.

(** The state threaded through [node_eval_recursive]: the engine's
    transposition table, the [stats] accumulator, the speculative repetition
    counter [board_played_times_prediction], the number of clock polls so far,
    and a ghost log of the transposition-table insertions (key and depth). *)
Record SearchState (Board Move : Type) := mkSearchState {
  ss_tt : Board -> option (TranspositionEntry Move);
  ss_stats : Stats;
  ss_pred : Board -> option Z;
  ss_polls : nat;
  ss_tt_log : list (Board * nat)
}.
Arguments mkSearchState {Board Move}.
Arguments ss_tt {Board Move}.
Arguments ss_stats {Board Move}.
Arguments ss_pred {Board Move}.
Arguments ss_polls {Board Move}.
Arguments ss_tt_log {Board Move}.

Inductive LoopExit := Returned | Completed.

(** [search_extensions::calculate], also written inline in
    [node_eval_recursive]: [num_legal_moves] is the number of legal moves of
    the node being searched, [new_board_checkers] the number of checkers of
    the child. *)
Definition extend_by (modules : Z) (num_extensions : nat) (num_legal_moves : nat)
    (new_board_checkers : Z) : nat :=
  if negb (module_enabled modules SEARCH_EXTENSIONS) || (3 <? num_extensions)%nat then 0%nat
  else if (num_legal_moves =? 1)%nat || (2 <=? new_board_checkers) then 1%nat
  else 0%nat.

(** [56 - sq + 2 * (sq % 8)] in [u8] arithmetic *)
Definition psqt_mirror (sq : Z) : Z := (56 - sq + 2 * (sq mod 8)) mod 256.

(** [match_piece_to_int]: the indices of the PESTO tables, 6 for no piece *)
Definition match_piece_to_int (p : option Piece) : nat :=
  match p with
  | Some Pawn => 0 | Some Knight => 1 | Some Bishop => 2
  | Some Rook => 3 | Some Queen => 4 | Some King => 5
  | None => 6
  end.

(** Stable insertion sort, the result of Rust's stable [sort_by]: [le x y]
    says [x] may precede [y]. *)
Fixpoint insert_by {A : Type} (le : A -> A -> bool) (x : A) (l : list A) : list A :=
  match l with
  | [] => [x]
  | y :: t => if le y x then y :: insert_by le x t else x :: y :: t
  end.

Definition sort_by {A : Type} (le : A -> A -> bool) (l : list A) : list A :=
  fold_left (fun acc x => insert_by le x acc) l [].

Section Search.
Context {Board Move : Type} `{CR : ChessRules Board Move} `{ET : EvalTerms Board}.

(** The answer of the n-th call of [utils::passed_deadline]. *)
Variable deadline_passed_at : nat -> bool.

Local Abbreviation State := (SearchState Board Move).
Local Abbreviation TE := (TranspositionEntry Move).
Local Abbreviation Eval := (Evaluation Move).

Definition set_stats (s : State) (st : Stats) : State :=
  mkSearchState (ss_tt s) st (ss_pred s) (ss_polls s) (ss_tt_log s).
Definition set_pred (s : State) (p : Board -> option Z) : State :=
  mkSearchState (ss_tt s) (ss_stats s) p (ss_polls s) (ss_tt_log s).

(** [utils::passed_deadline(deadline)] *)
Definition poll (s : State) : bool * State :=
  (deadline_passed_at (ss_polls s),
   mkSearchState (ss_tt s) (ss_stats s) (ss_pred s) (S (ss_polls s)) (ss_tt_log s)).

Definition is_white (c : Color) : bool :=
  match c with White => true | Black => false end.

(** [Algorithm::eval]: [board_played_times] is the engine's actual-game
    counter, [pred] the speculative one. *)
Definition eval_board (modules : Z) (board_played_times pred : Board -> option Z)
    (board : Board) : Z :=
  match status board with
  | Stalemate => 0
  | Checkmate => if is_white (side_to_move board) then f32_MIN else f32_MAX
  | Ongoing =>
      let played := u32_wrap (get_or0 board_played_times board + get_or0 pred board) in
      if 2 <=? played then 0 else eval_terms modules board
  end.

(** The TAPERED_INCREMENTAL_PESTO_PSQT update of the two accumulators after
    the move [chess_move] of [board] has been searched. *)
Definition incremental_update (board : Board) (chess_move : Move) (wi bi : Z) : Z * Z :=
  let moved_piece_type := match_piece_to_int (piece_on board (get_source chess_move)) in
  let is_attacked := negb (match_piece_to_int (piece_on board (get_dest chess_move)) =? 6)%nat in
  let attacked_piece_type := match_piece_to_int (piece_on board (get_dest chess_move)) in
  let source := psqt_mirror (get_source chess_move) in
  let dest := psqt_mirror (get_dest chess_move) in
  match side_to_move board with
  | White =>
      if wi =? 0 then (wi + calc_increment_all board White, bi)
      else
        let wi1 := wi - calc_increment board moved_piece_type source in
        let wi2 := wi1 + calc_increment board moved_piece_type dest in
        let bi1 := if is_attacked then bi - calc_increment board attacked_piece_type dest
                   else bi in
        (wi2, bi1)
  | Black =>
      if bi =? 0 then (wi, bi + calc_increment_all board Black)
      else
        let bi1 := bi - calc_increment board moved_piece_type source in
        let bi2 := bi1 + calc_increment board moved_piece_type dest in
        let wi1 := if is_attacked then wi - calc_increment board attacked_piece_type dest
                   else wi in
        (wi1, bi2)
  end.

(** [evaluation.eval.is_some() && (best.eval.is_none() || ...)] *)
Definition new_eval_is_better (maximise : bool) (old new : Eval) : bool :=
  match eval new, eval old with
  | None, _ => false
  | Some _, None => true
  | Some n, Some o => if maximise then o <? n else n <? o
  end.

(** The type of the recursive call made for a child:
    [new_board depth alpha beta num_extensions white black state]. *)
Definition Recurse := Board -> nat -> Z -> Z -> nat -> Z -> Z -> State -> Eval * State.

(** The child-evaluation step of the loop when the transposition table does
    not answer: increment the speculative counter, recurse, decrement. *)
Definition descend (rec : Recurse) (new_board : Board) (child_depth : nat)
    (alpha beta : Z) (child_extensions : nat) (wi bi : Z) (s : State) : Eval * State :=
  let s_inc := set_pred s (map_insert board_eq_dec new_board
                 (u32_wrap (get_or0 (ss_pred s) new_board + 1)) (ss_pred s)) in
  let '(evaluation, s_ret) := rec new_board child_depth alpha beta child_extensions wi bi s_inc in
  (evaluation,
   set_pred s_ret (map_insert board_eq_dec new_board
                    (u32_wrap (get_or0 (ss_pred s_ret) new_board - 1)) (ss_pred s_ret))).

(** The [for (i, (chess_move, new_board, transposition_entry))] loop of
    [node_eval_recursive]. [Returned] is an early [return best_evaluation]
    (deadline or SKIP_BAD_MOVES); [Completed] is the end of the loop or the
    alpha-beta [break]. *)
Fixpoint search_loop (rec : Recurse) (modules : Z) (board : Board) (depth : nat)
    (maximise deadline : bool) (num_extensions num_legal_moves : nat)
    (i : nat) (boards : list (Move * Board * option TE))
    (alpha beta : Z) (best : Eval) (wi bi : Z) (s : State) {struct boards}
    : LoopExit * Eval * State :=
  match boards with
  | [] => (Completed, best, s)
  | (chess_move, new_board, transposition_entry) :: rest =>
    let '(passed, s0) := if deadline then poll s else (false, s) in
    if passed then
      let st := ss_stats s0 in
      let n := inject_Z (Z.of_nat num_legal_moves) in
      let p := (progress_on_next_layer st * (1 / n) + inject_Z (Z.of_nat (i - 1)) / n)%Q in
      (Returned, best, set_stats s0 (set_progress st p))
    else
    let s1 := if (max_depth (ss_stats s0) <? depth)%nat
              then set_stats s0 (set_max_depth (ss_stats s0) depth) else s0 in
    if module_enabled modules SKIP_BAD_MOVES && (num_legal_moves * 1 <? i)%nat
    then (Returned, best, s1)
    else
    let ext := extend_by modules num_extensions num_legal_moves (checkers_popcnt new_board) in
    let '(evaluation, s2) :=
      match transposition_entry with
      | Some e =>
          if (depth <=? te_depth e)%nat
          then (mkEvaluation (Some (te_eval e)) (te_next_action e) (Some wi) (Some bi),
                set_stats s1 (incr_tt_accesses (ss_stats s1)))
          else descend rec new_board (depth - 1 + ext) alpha beta (num_extensions + ext) wi bi s1
      | None => descend rec new_board (depth - 1 + ext) alpha beta (num_extensions + ext) wi bi s1
      end in
    let s3 := set_stats s2 (incr_nodes (ss_stats s2)) in
    let best1 := if new_eval_is_better maximise best evaluation
                 then mkEvaluation (eval evaluation) (Some (MakeMove chess_move))
                        (white_incremental_psqt_eval best) (black_incremental_psqt_eval best)
                 else best in
    let '(alpha1, beta1) :=
      if module_enabled modules ALPHA_BETA then
        match eval evaluation with
        | Some v => if maximise then (Z.max alpha v, beta) else (alpha, Z.min beta v)
        | None => (alpha, beta)
        end
      else (alpha, beta) in
    if module_enabled modules ALPHA_BETA && (beta1 <? alpha1)
    then (Completed, best1, set_stats s3 (incr_breaks (ss_stats s3)))
    else
    let '(wi1, bi1) :=
      if module_enabled modules TAPERED_INCREMENTAL_PESTO_PSQT
      then incremental_update board chess_move wi bi else (wi, bi) in
    let best2 := mkEvaluation (eval best1) (next_action best1) (Some wi1) (Some bi1) in
    search_loop rec modules board depth maximise deadline num_extensions num_legal_moves
      (S i) rest alpha1 beta1 best2 wi1 bi1 s3
  end.

(** The move-ordering key: the cached evaluation, or 0. *)
Definition order_key (x : Move * Board * option TE) : Z :=
  match snd x with Some e => te_eval e | None => 0 end.

(** [boards.sort_by(...)]: ascending for Black, descending for White. *)
Definition order_boards (maximise : bool) (boards : list (Move * Board * option TE)) :=
  sort_by (fun x y => if maximise then order_key y <=? order_key x
                      else order_key x <=? order_key y) boards.

(** [Algorithm::node_eval_recursive]. [fuel] bounds the recursion; the
    wrapper [node_eval_recursive] below gives it its exact requirement, so
    the [fuel = 0] branch of a node with [depth > 0] is never reached. *)
Fixpoint node_eval_recursive_fuel (fuel : nat) (modules : Z)
    (board_played_times : Board -> option Z) (deadline : bool)
    (board : Board) (depth : nat) (alpha beta : Z) (original : bool)
    (num_extensions : nat) (wi bi : Z) (s : State) {struct fuel} : Eval * State :=
  match depth with
  | O =>
    let s1 := set_stats s (incr_leaves (ss_stats s)) in
    let e := eval_board modules board_played_times (ss_pred s1) board in
    let incremental_psqt_eval := match side_to_move board with Black => bi | White => wi end in
    (mkEvaluation (Some (e + incremental_psqt_eval)) None (Some wi) (Some bi), s1)
  | S _ =>
    let maximise := is_white (side_to_move board) in
    let legal_moves := new_legal board in
    let num_legal_moves := length legal_moves in
    if (num_legal_moves =? 0)%nat then
      let best0 := if checkers_popcnt board =? 0
                   then set_eval empty_evaluation (Some 0) else empty_evaluation in
      (set_eval best0 (Some (if is_white (side_to_move board) then f32_MIN else f32_MAX)), s)
    else
      let boards :=
        map (fun m => let nb := make_move_new board m in
                      (m, nb, if module_enabled modules TRANSPOSITION_TABLE
                              then ss_tt s nb else None)) legal_moves in
      let boards := order_boards maximise boards in
      match fuel with
      | O => (empty_evaluation, s)
      | S f =>
        let '(exit, best, s1) :=
          search_loop
            (fun nb d a b ne w bl st =>
               node_eval_recursive_fuel f modules board_played_times deadline
                 nb d a b false ne w bl st)
            modules board depth maximise deadline num_extensions num_legal_moves
            0 boards alpha beta empty_evaluation wi bi s in
        match exit with
        | Returned => (best, s1)
        | Completed =>
          let s2 :=
            if module_enabled modules TRANSPOSITION_TABLE && (3 <=? depth)%nat then
              let s_ins :=
                match eval best with
                | Some best_eval =>
                    mkSearchState
                      (map_insert board_eq_dec board
                         (mkTranspositionEntry depth best_eval (next_action best)) (ss_tt s1))
                      (ss_stats s1) (ss_pred s1) (ss_polls s1)
                      ((board, depth) :: ss_tt_log s1)
                | None => s1
                end in
              set_stats s_ins (incr_tt_entries (ss_stats s_ins))
            else s1 in
          (best, s2)
        end
      end
  end.

(** The recursion measure: every recursive call lowers it by exactly one. *)
Definition search_fuel (depth num_extensions : nat) : nat :=
  S (depth + (4 - Nat.min num_extensions 4)).

Definition node_eval_recursive (modules : Z) (board_played_times : Board -> option Z)
    (deadline : bool) (board : Board) (depth : nat) (alpha beta : Z) (original : bool)
    (num_extensions : nat) (wi bi : Z) (s : State) : Eval * State :=
  node_eval_recursive_fuel (search_fuel depth num_extensions) modules board_played_times
    deadline board depth alpha beta original num_extensions wi bi s.

(** One node of [Algorithm::node_eval_recursive] with its recursive call
    [self.node_eval_recursive(&new_board, ..., false, ...)] left open as [rec]:
    the body of [node_eval_recursive_fuel] once the fuel is available. *)
Definition node_eval_step (rec : Recurse) (modules : Z)
    (board_played_times : Board -> option Z) (deadline : bool)
    (board : Board) (depth : nat) (alpha beta : Z)
    (num_extensions : nat) (wi bi : Z) (s : State) : Eval * State :=
  match depth with
  | O =>
    let s1 := set_stats s (incr_leaves (ss_stats s)) in
    let e := eval_board modules board_played_times (ss_pred s1) board in
    let incremental_psqt_eval := match side_to_move board with Black => bi | White => wi end in
    (mkEvaluation (Some (e + incremental_psqt_eval)) None (Some wi) (Some bi), s1)
  | S _ =>
    let maximise := is_white (side_to_move board) in
    let legal_moves := new_legal board in
    let num_legal_moves := length legal_moves in
    if (num_legal_moves =? 0)%nat then
      let best0 := if checkers_popcnt board =? 0
                   then set_eval empty_evaluation (Some 0) else empty_evaluation in
      (set_eval best0 (Some (if is_white (side_to_move board) then f32_MIN else f32_MAX)), s)
    else
      let boards :=
        map (fun m => let nb := make_move_new board m in
                      (m, nb, if module_enabled modules TRANSPOSITION_TABLE
                              then ss_tt s nb else None)) legal_moves in
      let boards := order_boards maximise boards in
      let '(exit, best, s1) :=
        search_loop rec modules board depth maximise deadline num_extensions num_legal_moves
          0 boards alpha beta empty_evaluation wi bi s in
      match exit with
      | Returned => (best, s1)
      | Completed =>
        let s2 :=
          if module_enabled modules TRANSPOSITION_TABLE && (3 <=? depth)%nat then
            let s_ins :=
              match eval best with
              | Some best_eval =>
                  mkSearchState
                    (map_insert board_eq_dec board
                       (mkTranspositionEntry depth best_eval (next_action best)) (ss_tt s1))
                    (ss_stats s1) (ss_pred s1) (ss_polls s1)
                    ((board, depth) :: ss_tt_log s1)
              | None => s1
              end in
            set_stats s_ins (incr_tt_entries (ss_stats s_ins))
          else s1 in
        (best, s2)
      end
  end.

End Search.

(** ** The engine: [struct Algorithm] (its memoisation maps are inside
    [eval_terms]; [time_per_move] only produces the deadline). *)
Record Algorithm (Board Move : Type) := mkAlgorithm {
  modules : Z;
  transposition_table : Board -> option (TranspositionEntry Move);
  board_played_times : Board -> option Z
}.
Arguments mkAlgorithm {Board Move}.
Arguments modules {Board Move}.
Arguments transposition_table {Board Move}.
Arguments board_played_times {Board Move}.

Section Engine.
Context {Board Move : Type} `{CR : ChessRules Board Move} `{ET : EvalTerms Board}.
Variable deadline_passed_at : nat -> bool.

Local Abbreviation Engine := (Algorithm Board Move).
(** The [(action, stats)] part of the output of [Algorithm::next_action]. *)
Local Abbreviation Output := (option (Action Move) * Stats)%type.
(** A ghost record of one fixed-depth search run by the iterative deepening:
    its depth, whether it received the deadline, its output, and the answer
    of the [passed_deadline] check that followed it ([None] for depth 1). *)
Local Abbreviation Call := (nat * bool * Output * option bool)%type.

(** [Algorithm::next_action]: a fixed-depth search from the root with a
    fresh [Stats] and a fresh speculative counter. *)
Definition algorithm_next_action (e : Engine) (board : Board) (depth : nat)
    (deadline : bool) (polls : nat) : Output * Engine * nat :=
  let s0 := mkSearchState (transposition_table e) stats_default (fun _ => None) polls [] in
  let '(out, s1) :=
    node_eval_recursive deadline_passed_at (modules e) (board_played_times e) deadline
      board depth f32_MIN f32_MAX true 0 0 0 s0 in
  ((next_action out, ss_stats s1),
   mkAlgorithm (modules e) (ss_tt s1) (board_played_times e),
   ss_polls s1).

(** The [for depth in (deepest_complete_depth + 1)..=10] loop. *)
Fixpoint deepen (fuel : nat) (e : Engine) (board : Board) (depth : nat)
    (deepest_complete_output : Output) (deepest_complete_depth : nat)
    (polls : nat) (calls : list Call) : Output * nat * Engine * nat * list Call :=
  match fuel with
  | O => (deepest_complete_output, deepest_complete_depth, e, polls, calls)
  | S f =>
    let '(latest_output, e1, p1) := algorithm_next_action e board depth true polls in
    let passed := deadline_passed_at p1 in
    let calls1 := calls ++ [(depth, true, latest_output, Some passed)] in
    if passed then
      ((fst deepest_complete_output,
        set_progress (snd deepest_complete_output)
          (progress_on_next_layer (snd latest_output))),
       deepest_complete_depth, e1, S p1, calls1)
    else deepen f e1 board (S depth) latest_output depth (S p1) calls1
  end.

Definition START_DEPTH : nat := 1.

(** The iterative deepening of [next_action_iterative_deepening]: depth
    [START_DEPTH] without deadline, then depths 2 to 10 with it. Returns the
    deepest complete output and depth, the engine, the poll count and the
    ghost record of the searches run. *)
Definition iterative_deepening (e : Engine) (board : Board) (polls : nat)
    : Output * nat * Engine * nat * list Call :=
  let '(out1, e1, p1) := algorithm_next_action e board START_DEPTH false polls in
  deepen 9 e1 board (S START_DEPTH) out1 START_DEPTH p1 [(START_DEPTH, false, out1, None)].

(** The action chosen from the search output; [None] is the [panic!] of an
    ongoing position without action. *)
Definition choose_action (board : Board) (a : option (Action Move)) : option (Action Move) :=
  match a with
  | Some action => Some action
  | None =>
      match status board with
      | Ongoing => None
      | Stalemate => Some DeclareDraw
      | Checkmate => Some (Resign (side_to_move board))
      end
  end.

(** [board_played_times.insert(b, *board_played_times.get(b).unwrap_or(&0) + 1)] *)
Definition increment_played (m : Board -> option Z) (b : Board) : Board -> option Z :=
  map_insert board_eq_dec b (u32_wrap (get_or0 m b + 1)) m.

(** The engine after the first statement of
    [next_action_iterative_deepening]: the input position counted once more. *)
Definition entry_engine (e : Engine) (board : Board) : Engine :=
  mkAlgorithm (modules e) (transposition_table e)
    (increment_played (board_played_times e) board).

(** [Algorithm::next_action_iterative_deepening]; [None] is a panic. *)
Definition next_action_iterative_deepening (e : Engine) (board : Board) (polls : nat)
    : option (Action Move * Stats * Engine * nat * list Call) :=
  let e1 := entry_engine e board in
  let '(out, d, e2, p2, calls) := iterative_deepening e1 board polls in
  let stats := set_depth (snd out) d in
  match choose_action board (fst out) with
  | None => None
  | Some (MakeMove chess_move) =>
      let new_board := make_move_new board chess_move in
      let old_value := get_or0 (board_played_times e2) new_board in
      let action := if 3 <=? old_value then DeclareDraw else MakeMove chess_move in
      Some (action, stats,
            mkAlgorithm (modules e2) (transposition_table e2)
              (map_insert board_eq_dec new_board (u32_wrap (old_value + 1))
                 (board_played_times e2)),
            p2, calls)
  | Some action => Some (action, stats, e2, p2, calls)
  end.

(** Projections of a ghost call record. *)
Definition call_schedule (c : Call) : nat * bool := (fst (fst (fst c)), snd (fst (fst c))).
Definition call_output (c : Call) : Output := snd (fst c).
Definition call_check (c : Call) : option bool := snd c.

(** Projections of the result of [iterative_deepening]. *)
Definition id_output (r : Output * nat * Engine * nat * list Call) : Output :=
  fst (fst (fst (fst r))).
Definition id_depth (r : Output * nat * Engine * nat * list Call) : nat :=
  snd (fst (fst (fst r))).
Definition id_engine (r : Output * nat * Engine * nat * list Call) : Engine :=
  snd (fst (fst r)).
Definition id_calls (r : Output * nat * Engine * nat * list Call) : list Call := snd r.

(** Projections of the result of [next_action_iterative_deepening]. *)
Definition returned_action (r : option (Action Move * Stats * Engine * nat * list Call))
    : option (Action Move) :=
  option_map (fun x => fst (fst (fst (fst x)))) r.
Definition returned_played (r : option (Action Move * Stats * Engine * nat * list Call))
    : option (Board -> option Z) :=
  option_map (fun x => board_played_times (snd (fst (fst x)))) r.

End Engine.

(** ** Competition harness ([pitter/logic.rs]) *)

Inductive GameOutcome := WhiteWin | BlackWin | Draw | InconclusiveTooLong.

Inductive GamePairOutcome :=
| Algo1Win | Algo1HalfWin | Algo2Win | Algo2HalfWin | PairDraw
| InconclusiveSameColorWin | PairInconclusiveTooLong.

(** [GamePairOutcome::combine_outcomes]: the first argument is the game
    where Algo1 played White, the second the game where Algo2 did. *)
Definition combine_outcomes (algo1_white algo2_white : GameOutcome) : GamePairOutcome :=
  match algo1_white, algo2_white with
  | WhiteWin, WhiteWin => InconclusiveSameColorWin
  | WhiteWin, BlackWin => Algo1Win
  | WhiteWin, Draw => Algo1HalfWin
  | BlackWin, WhiteWin => Algo2Win
  | BlackWin, BlackWin => InconclusiveSameColorWin
  | BlackWin, Draw => Algo2HalfWin
  | Draw, WhiteWin => Algo2HalfWin
  | Draw, BlackWin => Algo1HalfWin
  | Draw, Draw => PairDraw
  | InconclusiveTooLong, _ => PairInconclusiveTooLong
  | _, InconclusiveTooLong => PairInconclusiveTooLong
  end.

(** Exchanging the roles of Algo1 and Algo2 in a pair outcome. *)
Definition swap_algos (o : GamePairOutcome) : GamePairOutcome :=
  match o with
  | Algo1Win => Algo2Win
  | Algo1HalfWin => Algo2HalfWin
  | Algo2Win => Algo1Win
  | Algo2HalfWin => Algo1HalfWin
  | o => o
  end.

(** [CompetitionResults] of [pitter/logic.rs]: its [usize] counters are
    64-bit, with their wrap-around written out. *)
Record CompetitionResults := mkCompetitionResults {
  algo1_wins : Z;
  algo2_wins : Z;
  draws : Z;
  inconclusive_same_color_win : Z;
  inconclusive_too_long : Z;
  algo1_half_wins : Z;
  algo2_half_wins : Z
}.

(** [CompetitionResults::default()] *)
Definition competition_results_default : CompetitionResults :=
  mkCompetitionResults 0 0 0 0 0 0 0.

Definition usize_wrap (z : Z) : Z := z mod 2 ^ 64.

(** [CompetitionResults::register_game_outcome] *)
Definition register_game_outcome (r : CompetitionResults) (o : GamePairOutcome)
    : CompetitionResults :=
  let '(mkCompetitionResults a1 a2 d sc tl h1 h2) := r in
  match o with
  | Algo1Win => mkCompetitionResults (usize_wrap (a1 + 1)) a2 d sc tl h1 h2
  | Algo2Win => mkCompetitionResults a1 (usize_wrap (a2 + 1)) d sc tl h1 h2
  | PairDraw => mkCompetitionResults a1 a2 (usize_wrap (d + 1)) sc tl h1 h2
  | PairInconclusiveTooLong => mkCompetitionResults a1 a2 d sc (usize_wrap (tl + 1)) h1 h2
  | Algo1HalfWin => mkCompetitionResults a1 a2 d sc tl (usize_wrap (h1 + 1)) h2
  | InconclusiveSameColorWin => mkCompetitionResults a1 a2 d (usize_wrap (sc + 1)) tl h1 h2
  | Algo2HalfWin => mkCompetitionResults a1 a2 d sc tl h1 (usize_wrap (h2 + 1))
  end.

Definition GamePairOutcome_eq_dec : forall x y : GamePairOutcome, {x = y} + {x <> y}.
Proof. decide equality. Defined.

(** The number of pairs with outcome [o] among [l]. *)
Definition count_outcome (l : list GamePairOutcome) (o : GamePairOutcome) : nat :=
  count_occ GamePairOutcome_eq_dec l o.

(** [eval::eval_no_legal_moves], the sibling of the no-legal-move branch of
    [node_eval_recursive]. *)
Definition eval_no_legal_moves {Board Move : Type} `{ChessRules Board Move}
    (board : Board) : Z :=
  if checkers_popcnt board =? 0 then 0
  else if is_white (side_to_move board) then f32_MIN else f32_MAX.

(** ** A small concrete rules instance, used to run the definitions.

    Boards and moves are numbers; the move [k] leads to board [k]. Board 0 is
    a stalemate with White to move (no legal move, no checker); board 1 has
    the single legal move to board 2 and board 2 the two moves to boards 3
    and 4; board 5 moves to 6 and 7, which lead back to 5 and to 8. *)
Module ToyRules.

Definition toy_moves (b : nat) : list nat :=
  match b with
  | 1 => [2] | 2 => [3; 4] | 3 => [1] | 4 => [1]
  | 5 => [6; 7] | 6 => [5; 8] | 7 => [5; 8] | 8 => [6]
  | _ => []
  end%nat.

Definition toy_status (b : nat) : BoardStatus :=
  match toy_moves b with [] => Stalemate | _ => Ongoing end.

#[export] Instance toy_rules : ChessRules nat nat := {
  board_eq_dec := Nat.eq_dec;
  new_legal := toy_moves;
  make_move_new := fun _ m => m;
  side_to_move := fun b => if Nat.even b then White else Black;
  checkers_popcnt := fun _ => 0;
  status := toy_status;
  piece_on := fun _ _ => None;
  get_source := fun _ => 0;
  get_dest := fun _ => 0
}.

#[export] Instance toy_terms : EvalTerms nat := {
  eval_terms := fun _ b => Z.of_nat b;
  calc_increment := fun _ _ _ => 0;
  calc_increment_all := fun _ _ => 0
}.

(** The clock of a search with a generous budget: the deadline never passes. *)
Definition never_passed (_ : nat) : bool := false.

Definition empty_state : SearchState nat nat :=
  mkSearchState (fun _ => None) stats_default (fun _ => None) 0 [].

(** An engine that has recorded position 2 twice (the S3 shuffle). *)
Definition s3_engine : Algorithm nat nat :=
  mkAlgorithm 0 (fun _ => None) (fun b => if Nat.eqb b 2 then Some 2 else None).

End ToyRules.

(** ** Predicates on the search state used by the properties *)

(** The speculative counter [m'] holds the counts of [m]: every key keeps its
    value, except that a key absent from [m] may now be present with count 0
    (the [insert] of the decrement leaves the key in the map). *)
Definition counter_restored {Board : Type} (m m' : Board -> option Z) : Prop :=
  forall b, m' b = m b \/ (m b = None /\ m' b = Some 0).

(** Every count is a [u32]. *)
Definition u32_counter {Board : Type} (m : Board -> option Z) : Prop :=
  forall b v, m b = Some v -> 0 <= v < 2 ^ 32.

(** The transposition-table effect of a search going from [s] to [s']: the
    insertions logged in between are all at depth at least 3 with the
    TRANSPOSITION_TABLE module enabled, and every key of the table is either
    unchanged or holds an entry whose insertion was logged. *)
Definition tt_inserts_deep {Board Move : Type} (modules : Z)
    (s s' : SearchState Board Move) : Prop :=
  exists inserted,
    ss_tt_log s' = inserted ++ ss_tt_log s /\
    (forall b d, In (b, d) inserted ->
       (3 <= d)%nat /\ module_enabled modules TRANSPOSITION_TABLE = true) /\
    (forall b, ss_tt s' b = ss_tt s b \/
       exists e, ss_tt s' b = Some e /\ In (b, te_depth e) inserted).

(** [a] is no action, or a move that is legal in [b]. *)
Definition legal_action {Board Move : Type} `{ChessRules Board Move}
    (b : Board) (a : option (Action Move)) : Prop :=
  a = None \/ exists m, a = Some (MakeMove m) /\ In m (new_legal b).

(** [a] is a move that is legal in [b]. *)
Definition proposes_legal_move {Board Move : Type} `{ChessRules Board Move}
    (b : Board) (a : option (Action Move)) : Prop :=
  exists m, a = Some (MakeMove m) /\ In m (new_legal b).

(** No clock poll numbered from [lo] to [hi - 1] found the deadline passed. *)
Definition quiet_between (deadline_passed_at : nat -> bool) (lo hi : nat) : Prop :=
  forall n, (lo <= n < hi)%nat -> deadline_passed_at n = false.

(** A real clock: once the deadline has passed, it stays passed. *)
Definition monotone_clock (deadline_passed_at : nat -> bool) : Prop :=
  forall n m, (n <= m)%nat -> deadline_passed_at n = true -> deadline_passed_at m = true.

(** * Properties *)

(** ** Outcome combination *)

(** C9: swapping the two engines swaps the arguments of [combine_outcomes]
    and exchanges Algo1 and Algo2 in the result; two White wins (one per
    engine) give [InconclusiveSameColorWin] whichever engine is first. *)
Theorem combine_outcomes_swap_symmetric :
  forall x y : GameOutcome,
    combine_outcomes y x = swap_algos (combine_outcomes x y) /\
    combine_outcomes WhiteWin WhiteWin = InconclusiveSameColorWin.
Proof.
  intros x y; split; [destruct x, y|]; reflexivity.
Qed.

(** ** Search *)

Section SearchProofs.
Context {Board Move : Type} `{CR : ChessRules Board Move} `{ET : EvalTerms Board}.
Variable deadline_passed_at : nat -> bool.

Local Abbreviation State := (SearchState Board Move).

(** C1: at a node of remaining depth at least 1 without legal moves the
    search returns the losing sentinel of the side to move, also when the
    node has no checker (a stalemate, where [eval_no_legal_moves] and
    [Algorithm::eval] give 0): the stalemate value 0 is overwritten. *)
Theorem no_legal_moves_search_value :
  forall modules bpt deadline board d alpha beta original ne wi bi (s : State),
    new_legal board = [] ->
    checkers_popcnt board = 0 ->
    eval (fst (node_eval_recursive deadline_passed_at modules bpt deadline board (S d)
                 alpha beta original ne wi bi s))
    = Some (if is_white (side_to_move board) then f32_MIN else f32_MAX) /\
    eval_no_legal_moves board = 0.
Proof.
  intros modules bpt deadline board d alpha beta original ne wi bi s Hnone Hcheck.
  unfold node_eval_recursive, eval_no_legal_moves; simpl.
  rewrite Hnone, Hcheck; simpl.
  split; reflexivity.
Qed.

(** ** Generic frame for the search loop

    A relation between states that is a preorder, is kept by the bookkeeping
    steps ([stats] updates and clock polls) and by the descent into a child,
    relates the state before the loop to the state after it, on every exit. *)
Lemma search_loop_rel (Rel : State -> State -> Prop) (Inv : State -> Prop)
  (Hrefl : forall s, Rel s s)
  (Htrans : forall s1 s2 s3, Rel s1 s2 -> Rel s2 s3 -> Rel s1 s3)
  (Hinv : forall s s', Inv s -> Rel s s' -> Inv s')
  (Hstats : forall s st, Rel s (set_stats s st))
  (Hpoll : forall s, Rel s (snd (poll deadline_passed_at s)))
  (rec : Recurse)
  (Hdesc : forall nb d a b ne wi bi s, Inv s -> Rel s (snd (descend rec nb d a b ne wi bi s))) :
  forall modules board depth maximise deadline ne n boards i alpha beta best wi bi s,
    Inv s ->
    Rel s (snd (search_loop deadline_passed_at rec modules board depth maximise deadline
                  ne n i boards alpha beta best wi bi s)).
Proof.
  intros modules board depth maximise deadline ne n boards.
  induction boards as [|[[m nb] te] rest IH]; intros i alpha beta best wi bi s Hs; simpl.
  - apply Hrefl.
  - destruct (if deadline then poll deadline_passed_at s else (false, s)) as [passed s0] eqn:Ep.
    assert (Hr0 : Rel s s0).
    { destruct deadline.
      - pose proof (Hpoll s) as Hp; rewrite Ep in Hp; exact Hp.
      - injection Ep as _ <-; apply Hrefl. }
    assert (Hs0 : Inv s0) by eauto.
    set (s1 := if (max_depth (ss_stats s0) <? depth)%nat
               then set_stats s0 (set_max_depth (ss_stats s0) depth) else s0).
    assert (Hr1 : Rel s s1).
    { unfold s1; destruct (max_depth (ss_stats s0) <? depth)%nat; eauto. }
    assert (Hs1 : Inv s1) by eauto.
    clearbody s1.
    destruct passed; simpl; [eauto|].
    destruct (module_enabled modules SKIP_BAD_MOVES && (n * 1 <? i)%nat)%bool; simpl; [exact Hr1|].
    lazymatch goal with |- context [match ?X with (_, _) => _ end] => destruct X as [evaluation s2] eqn:E2 end.
    assert (Hr2 : Rel s s2).
    { destruct te as [e|]; [destruct (depth <=? te_depth e)%nat|].
      - injection E2 as _ <-; eauto.
      - pose proof (Hdesc nb (depth - 1 + extend_by modules ne n (checkers_popcnt nb))%nat alpha beta
          (ne + extend_by modules ne n (checkers_popcnt nb))%nat wi bi s1 Hs1) as Hd.
        rewrite E2 in Hd; eauto.
      - pose proof (Hdesc nb (depth - 1 + extend_by modules ne n (checkers_popcnt nb))%nat alpha beta
          (ne + extend_by modules ne n (checkers_popcnt nb))%nat wi bi s1 Hs1) as Hd.
        rewrite E2 in Hd; eauto. }
    assert (Hr3 : Rel s (set_stats s2 (incr_nodes (ss_stats s2)))) by eauto.
    assert (Hs3 : Inv (set_stats s2 (incr_nodes (ss_stats s2)))) by eauto.
    lazymatch goal with |- context [match ?X with (_, _) => _ end] => destruct X as [alpha1 beta1] end.
    destruct (module_enabled modules ALPHA_BETA && (beta1 <? alpha1))%bool; simpl; [eauto|].
    lazymatch goal with |- context [match ?X with (_, _) => _ end] => destruct X as [wi1 bi1] end.
    eauto.
Qed.

Lemma wrap_inc_dec : forall v, 0 <= v < 2 ^ 32 -> u32_wrap (u32_wrap (v + 1) - 1) = v.
Proof.
  intros v Hv; unfold u32_wrap.
  rewrite Zminus_mod_idemp_l.
  replace (v + 1 - 1) with v by lia.
  apply Z.mod_small; lia.
Qed.

Lemma counter_restored_refl : forall m : Board -> option Z, counter_restored m m.
Proof. intros m b; left; reflexivity. Qed.

Lemma counter_restored_trans : forall m1 m2 m3 : Board -> option Z,
  counter_restored m1 m2 -> counter_restored m2 m3 -> counter_restored m1 m3.
Proof.
  intros m1 m2 m3 H12 H23 b.
  destruct (H12 b) as [E12 | [N1 S2]]; destruct (H23 b) as [E23 | [N2 S3]].
  - left; congruence.
  - right; split; congruence.
  - right; split; congruence.
  - congruence.
Qed.

Lemma u32_counter_restored : forall m m' : Board -> option Z,
  u32_counter m -> counter_restored m m' -> u32_counter m'.
Proof.
  intros m m' Hm Hr b v Hv.
  destruct (Hr b) as [E | [_ E]]; rewrite E in Hv.
  - exact (Hm b v Hv).
  - injection Hv as <-; lia.
Qed.

Lemma u32_wrap_range : forall z, 0 <= u32_wrap z < 2 ^ 32.
Proof. intros z; unfold u32_wrap; apply Z.mod_pos_bound; lia. Qed.

(** Increment, descent, decrement: the counter is restored around a child
    whose own search restores it. *)
Lemma descend_restores (rec : Recurse) :
  (forall nb d a b ne wi bi (st : State), u32_counter (ss_pred st) ->
     counter_restored (ss_pred st) (ss_pred (snd (rec nb d a b ne wi bi st)))) ->
  forall nb d a b ne wi bi (s : State), u32_counter (ss_pred s) ->
    counter_restored (ss_pred s) (ss_pred (snd (descend rec nb d a b ne wi bi s))).
Proof.
  intros Hrec nb d a b ne wi bi s Hs.
  unfold descend.
  set (m1 := map_insert board_eq_dec nb (u32_wrap (get_or0 (ss_pred s) nb + 1)) (ss_pred s)).
  assert (Hm1 : u32_counter m1).
  { intros x v Hv; unfold m1, map_insert in Hv.
    destruct (board_eq_dec x nb).
    - injection Hv as <-; apply u32_wrap_range.
    - exact (Hs x v Hv). }
  destruct (rec nb d a b ne wi bi (set_pred s m1)) as [ev sr] eqn:Er.
  pose proof (Hrec nb d a b ne wi bi (set_pred s m1) Hm1) as Hr.
  rewrite Er in Hr; simpl in Hr |- *.
  intros x; unfold map_insert.
  destruct (board_eq_dec x nb) as [-> | Hne].
  - assert (Esr : ss_pred sr nb = Some (u32_wrap (get_or0 (ss_pred s) nb + 1))).
    { destruct (Hr nb) as [E | [N _]]; unfold m1, map_insert in *;
        destruct (board_eq_dec nb nb); congruence. }
    replace (get_or0 (ss_pred sr) nb) with (u32_wrap (get_or0 (ss_pred s) nb + 1))
      by (unfold get_or0; rewrite Esr; reflexivity).
    unfold get_or0; destruct (ss_pred s nb) as [v|] eqn:Ev.
    + left; rewrite wrap_inc_dec; [reflexivity | exact (Hs nb v Ev)].
    + right; split; reflexivity.
  - destruct (Hr x) as [E | [N E]]; unfold m1, map_insert in *;
      destruct (board_eq_dec x nb); try contradiction; auto.
Qed.

Lemma node_eval_fuel_restores :
  forall fuel modules bpt deadline board depth alpha beta original ne wi bi (s : State),
    u32_counter (ss_pred s) ->
    counter_restored (ss_pred s)
      (ss_pred (snd (node_eval_recursive_fuel deadline_passed_at fuel modules bpt deadline
                       board depth alpha beta original ne wi bi s))).
Proof.
  induction fuel as [|fuel IH];
    intros modules bpt deadline board depth alpha beta original ne wi bi s Hs;
    destruct depth as [|depth]; simpl; try apply counter_restored_refl.
  - destruct (length (new_legal board) =? 0)%nat; apply counter_restored_refl.
  - destruct (length (new_legal board) =? 0)%nat; [apply counter_restored_refl|].
    lazymatch goal with |- context [match ?X with (_, _) => _ end] =>
      destruct X as [[exit best] s1] eqn:El end.
    assert (Hr : counter_restored (ss_pred s) (ss_pred s1)).
    { lazymatch type of El with search_loop _ ?rec ?mo ?bo ?de ?ma ?dl ?ne' ?n ?i ?bs ?a ?b ?be ?w ?bl ?st = _ =>
        pose proof (search_loop_rel (fun x y => counter_restored (ss_pred x) (ss_pred y))
                     (fun x => u32_counter (ss_pred x))
                     (fun x => counter_restored_refl _)
                     (fun x y z => counter_restored_trans _ _ _)
                     (fun x y H R => u32_counter_restored _ _ H R)
                     (fun x st => counter_restored_refl _)
                     (fun x => counter_restored_refl _)
                     rec
                     (descend_restores rec (fun nb d a b ne wi bi st H => IH _ _ _ _ _ _ _ _ _ _ _ _ H))
                     mo bo de ma dl ne' n bs i a b be w bl st Hs) as HL
      end.
      rewrite El in HL; exact HL. }
    destruct exit; [exact Hr|].
    simpl; lazymatch goal with |- context [if ?c then _ else _] => destruct c end;
      [|exact Hr].
    destruct (eval best); exact Hr.
Qed.

(** C2: on every exit of the fixed-depth search (leaf, no legal move,
    transposition hit, alpha-beta break, early return on the deadline) the
    speculative repetition counter [board_played_times_prediction] holds the
    same count for every position as before the call; a position that was
    absent may be left in the map with count 0. *)
Theorem speculative_counter_restored :
  forall modules bpt deadline board depth alpha beta original ne wi bi (s : State),
    u32_counter (ss_pred s) ->
    let s' := snd (node_eval_recursive deadline_passed_at modules bpt deadline board depth
                     alpha beta original ne wi bi s) in
    (forall b, get_or0 (ss_pred s') b = get_or0 (ss_pred s) b) /\
    counter_restored (ss_pred s) (ss_pred s').
Proof.
  intros modules bpt deadline board depth alpha beta original ne wi bi s Hs s'.
  assert (H : counter_restored (ss_pred s) (ss_pred s'))
    by (apply node_eval_fuel_restores; exact Hs).
  split; [|exact H].
  intros b; unfold get_or0.
  destruct (H b) as [E | [N E]]; rewrite E; [reflexivity | rewrite N; reflexivity].
Qed.

(** ** Transposition-table insertions *)

Lemma tt_inserts_deep_same modules (s s' : State) :
  ss_tt s' = ss_tt s -> ss_tt_log s' = ss_tt_log s -> tt_inserts_deep modules s s'.
Proof.
  intros Ht Hl; exists []; split; [exact Hl | split].
  - intros b d [].
  - intros b; left; rewrite Ht; reflexivity.
Qed.

Lemma tt_inserts_deep_refl modules (s : State) : tt_inserts_deep modules s s.
Proof. apply tt_inserts_deep_same; reflexivity. Qed.

Lemma tt_inserts_deep_trans modules (s1 s2 s3 : State) :
  tt_inserts_deep modules s1 s2 -> tt_inserts_deep modules s2 s3 ->
  tt_inserts_deep modules s1 s3.
Proof.
  intros (n1 & L1 & D1 & T1) (n2 & L2 & D2 & T2).
  exists (n2 ++ n1); split; [rewrite L2, L1, app_assoc; reflexivity | split].
  - intros b d Hin; apply in_app_or in Hin as [H | H]; eauto.
  - intros b; destruct (T2 b) as [E2 | (e & E2 & I2)].
    + destruct (T1 b) as [E1 | (e & E1 & I1)].
      * left; congruence.
      * right; exists e; split; [congruence | apply in_or_app; right; exact I1].
    + right; exists e; split; [exact E2 | apply in_or_app; left; exact I2].
Qed.

Lemma descend_tt (rec : Recurse) modules :
  (forall nb d a b ne wi bi (st : State),
     tt_inserts_deep modules st (snd (rec nb d a b ne wi bi st))) ->
  forall nb d a b ne wi bi (s : State),
    tt_inserts_deep modules s (snd (descend rec nb d a b ne wi bi s)).
Proof.
  intros Hrec nb d a b ne wi bi s; unfold descend.
  lazymatch goal with |- context [rec ?nb ?d ?a ?b ?ne ?wi ?bi ?st] =>
    pose proof (Hrec nb d a b ne wi bi st) as Hr;
    destruct (rec nb d a b ne wi bi st) as [ev sr] end.
  simpl in *.
  eapply tt_inserts_deep_trans; [apply tt_inserts_deep_same; reflexivity|].
  eapply tt_inserts_deep_trans; [exact Hr|].
  apply tt_inserts_deep_same; reflexivity.
Qed.

Lemma node_eval_fuel_tt :
  forall fuel modules bpt deadline board depth alpha beta original ne wi bi (s : State),
    tt_inserts_deep modules s
      (snd (node_eval_recursive_fuel deadline_passed_at fuel modules bpt deadline
              board depth alpha beta original ne wi bi s)).
Proof.
  induction fuel as [|fuel IH];
    intros modules bpt deadline board depth alpha beta original ne wi bi s;
    destruct depth as [|depth]; simpl; try (apply tt_inserts_deep_same; reflexivity).
  - destruct (length (new_legal board) =? 0)%nat; apply tt_inserts_deep_refl.
  - destruct (length (new_legal board) =? 0)%nat; [apply tt_inserts_deep_refl|].
    lazymatch goal with |- context [match ?X with (_, _) => _ end] =>
      destruct X as [[exit best] s1] eqn:El end.
    assert (Hr : tt_inserts_deep modules s s1).
    { lazymatch type of El with search_loop _ ?rec ?mo ?bo ?de ?ma ?dl ?ne' ?n ?i ?bs ?a ?b ?be ?w ?bl ?st = _ =>
        pose proof (search_loop_rel (tt_inserts_deep modules) (fun _ => True)
                     (tt_inserts_deep_refl modules)
                     (tt_inserts_deep_trans modules)
                     (fun _ _ _ _ => I)
                     (fun x st => tt_inserts_deep_same modules _ _ eq_refl eq_refl)
                     (fun x => tt_inserts_deep_same modules _ _ eq_refl eq_refl)
                     rec
                     (fun nb d a b ne wi bi st _ =>
                        descend_tt rec modules (fun nb d a b ne wi bi st => IH _ _ _ _ _ _ _ _ _ _ _ _)
                          nb d a b ne wi bi st)
                     mo bo de ma dl ne' n bs i a b be w bl st I) as HL
      end.
      rewrite El in HL; exact HL. }
    destruct exit; [exact Hr|].
    simpl; destruct (module_enabled modules TRANSPOSITION_TABLE) eqn:Htt; simpl; [|exact Hr].
    destruct depth as [|[|depth]]; simpl; [exact Hr | exact Hr|].
    destruct (eval best) as [best_eval|]; simpl.
    + eapply tt_inserts_deep_trans; [exact Hr|].
      unfold set_stats; simpl.
      exists [(board, S (S (S depth)))]; split; [reflexivity | split].
      * intros b d [Hb | []]; injection Hb as _ <-; split; [lia | exact Htt].
      * intros b; destruct (board_eq_dec b board) as [Heq | Hne].
        -- subst b; right.
           exists (mkTranspositionEntry (S (S (S depth))) best_eval (next_action best)); split.
           { simpl; unfold map_insert.
             destruct (board_eq_dec board board) as [_ | Hb]; [reflexivity | congruence]. }
           left; reflexivity.
        -- left; simpl; unfold map_insert.
           destruct (board_eq_dec b board); [contradiction | reflexivity].
    + eapply tt_inserts_deep_trans; [exact Hr|].
      apply tt_inserts_deep_same; reflexivity.
Qed.

(** C8: the fixed-depth search inserts into the transposition table only at
    nodes of remaining depth at least 3 with TRANSPOSITION_TABLE enabled: the
    insertions it logs all have depth at least 3, and every entry of the
    table after the search is either the one it had before or a logged
    insertion. In particular leaves and nodes of depth 1 or 2 insert nothing. *)
Theorem tt_insertions_only_deep :
  forall modules bpt deadline board depth alpha beta original ne wi bi (s : State),
    tt_inserts_deep modules s
      (snd (node_eval_recursive deadline_passed_at modules bpt deadline board depth
              alpha beta original ne wi bi s)).
Proof.
  intros; apply node_eval_fuel_tt.
Qed.

(** ** Search extensions *)

Lemma extend_by_rule : forall modules num_extensions n c,
  let ext := extend_by modules num_extensions n c in
  (ext = 1%nat <->
     module_enabled modules SEARCH_EXTENSIONS = true /\ (num_extensions <= 3)%nat /\
     (n = 1%nat \/ 2 <= c)) /\
  (ext = 0%nat \/ ext = 1%nat).
Proof.
  intros modules num_extensions n c ext; unfold ext, extend_by.
  destruct (module_enabled modules SEARCH_EXTENSIONS); simpl.
  2: { split; [split; [discriminate | intros [H _]; discriminate] | left; reflexivity]. }
  destruct (3 <? num_extensions)%nat eqn:Ene; simpl.
  - apply Nat.ltb_lt in Ene.
    split; [split; [discriminate | intros [_ [H _]]; lia] | left; reflexivity].
  - apply Nat.ltb_ge in Ene.
    destruct ((n =? 1)%nat) eqn:El; simpl.
    + apply Nat.eqb_eq in El; split; [split; [intros _; auto | reflexivity] | right; reflexivity].
    + apply Nat.eqb_neq in El.
      destruct (2 <=? c) eqn:Ec.
      * apply Z.leb_le in Ec; split; [split; [intros _; auto | reflexivity] | right; reflexivity].
      * apply Z.leb_gt in Ec.
        split; [split; [discriminate | intros [_ [_ [H | H]]]; lia] | left; reflexivity].
Qed.

End SearchProofs.

Section EngineProofs.
Context {Board Move : Type} `{CR : ChessRules Board Move} `{ET : EvalTerms Board}.
Variable deadline_passed_at : nat -> bool.

Local Abbreviation Engine := (Algorithm Board Move).

Lemma algorithm_next_action_engine : forall (e : Engine) board depth deadline polls,
  let e' := snd (fst (algorithm_next_action deadline_passed_at e board depth deadline polls)) in
  modules e' = modules e /\ board_played_times e' = board_played_times e.
Proof.
  intros e board depth deadline polls; unfold algorithm_next_action.
  lazymatch goal with |- context [match ?X with (_, _) => _ end] => destruct X end.
  split; reflexivity.
Qed.

Lemma deepen_keeps_played : forall fuel (e : Engine) board depth best bd polls calls,
  let '(_, _, e', _, _) := deepen deadline_passed_at fuel e board depth best bd polls calls in
  board_played_times e' = board_played_times e.
Proof.
  induction fuel as [|fuel IH]; intros e board depth best bd polls calls; simpl; [reflexivity|].
  pose proof (algorithm_next_action_engine e board depth true polls) as [_ He].
  destruct (algorithm_next_action deadline_passed_at e board depth true polls) as [[o e1] p1].
  simpl in He.
  destruct (deadline_passed_at p1); [exact He|].
  specialize (IH e1 board (S depth) o depth (S p1)
                (calls ++ [(depth, true, o, Some false)])).
  destruct (deepen _ _ _ _ _ _ _ _ _) as [[[[? ?] e'] ?] ?].
  congruence.
Qed.

Lemma iterative_deepening_keeps_played : forall (e : Engine) board polls,
  let '(_, _, e', _, _) := iterative_deepening deadline_passed_at e board polls in
  board_played_times e' = board_played_times e.
Proof.
  intros e board polls; unfold iterative_deepening.
  pose proof (algorithm_next_action_engine e board START_DEPTH false polls) as [_ He].
  destruct (algorithm_next_action deadline_passed_at e board START_DEPTH false polls)
    as [[o e1] p1].
  simpl in He.
  pose proof (deepen_keeps_played 9 e1 board (S START_DEPTH) o START_DEPTH p1
                [(START_DEPTH, false, o, None)]) as H.
  destruct (deepen _ _ _ _ _ _ _ _ _) as [[[[? ?] e'] ?] ?].
  congruence.
Qed.

Lemma iterative_deepening_played : forall (e : Engine) board polls,
  board_played_times (id_engine (iterative_deepening deadline_passed_at e board polls))
  = board_played_times e.
Proof.
  intros e board polls.
  pose proof (iterative_deepening_keeps_played e board polls) as H.
  destruct (iterative_deepening _ _ _ _) as [[[[? ?] ?] ?] ?]; exact H.
Qed.

(** C3: when the iterative deepening chooses [MakeMove m], the returned
    action is [DeclareDraw] exactly when the position after [m] already has
    count at least 3 in the actual-game counter (as read after the entry
    increment), and [MakeMove m] otherwise. A position recorded twice before,
    for which [m] makes the third occurrence, is not converted. *)
Theorem repetition_draw_threshold : forall (e : Engine) board polls m,
  let e1 := entry_engine e board in
  choose_action board (fst (id_output (iterative_deepening deadline_passed_at e1 board polls)))
    = Some (MakeMove m) ->
  returned_action (next_action_iterative_deepening deadline_passed_at e board polls)
    = Some (if 3 <=? get_or0 (board_played_times e1) (make_move_new board m)
            then DeclareDraw else MakeMove m).
Proof.
  intros e board polls m e1 Hc.
  pose proof (iterative_deepening_played e1 board polls) as Hp.
  unfold next_action_iterative_deepening; fold e1.
  destruct (iterative_deepening deadline_passed_at e1 board polls)
    as [[[[out d] e2] p2] calls].
  unfold id_output, id_engine in *; simpl in Hc, Hp.
  rewrite Hc; simpl; rewrite Hp; reflexivity.
Qed.

(** C10: [next_action_iterative_deepening] adds one (modulo [2^32]) to the
    count of the input position and changes no other key before any search;
    the searches leave that counter unchanged; and the returned counter is
    the entry counter with, when the chosen action is [MakeMove m] (whether
    or not it is then converted to [DeclareDraw]), the position after [m]
    counted once more, and the entry counter itself otherwise. *)
Theorem played_counter_frame : forall (e : Engine) board polls,
  let e1 := entry_engine e board in
  let r := iterative_deepening deadline_passed_at e1 board polls in
  get_or0 (board_played_times e1) board = u32_wrap (get_or0 (board_played_times e) board + 1) /\
  (forall b, b <> board -> board_played_times e1 b = board_played_times e b) /\
  board_played_times (id_engine r) = board_played_times e1 /\
  returned_played (next_action_iterative_deepening deadline_passed_at e board polls)
    = match choose_action board (fst (id_output r)) with
      | None => None
      | Some (MakeMove m) =>
          Some (increment_played (board_played_times e1) (make_move_new board m))
      | Some _ => Some (board_played_times e1)
      end.
Proof.
  intros e board polls e1 r.
  split; [|split; [|split]].
  - unfold e1, entry_engine, increment_played, get_or0, map_insert; simpl.
    destruct (board_eq_dec board board) as [_|Hb]; [reflexivity|congruence].
  - intros b Hb; unfold e1, entry_engine, increment_played, map_insert; simpl.
    destruct (board_eq_dec b board); [contradiction|reflexivity].
  - apply iterative_deepening_played.
  - pose proof (iterative_deepening_played e1 board polls) as Hp.
    unfold next_action_iterative_deepening; fold e1; unfold r in *.
    destruct (iterative_deepening deadline_passed_at e1 board polls)
      as [[[[out d] e2] p2] calls].
    unfold id_output, id_engine in *; simpl in Hp |- *.
    destruct (choose_action board (fst out)) as [[m| | | |c]|]; simpl;
      rewrite ?Hp; reflexivity.
Qed.

(** C7: the searches run by one iterative deepening are at depths 1, 2, ...,
    k for some k between 2 and 10, the one at depth 1 without deadline and
    the others with it; every deadline check but the last found the
    deadline not passed. If the last check found it passed, the result is
    the depth [k - 1] output with only its progress statistic taken from
    the cancelled depth [k]; otherwise [k = 10] and the result is the depth
    10 output. *)
Theorem iterative_deepening_schedule : forall (e : Engine) board polls,
  let r := iterative_deepening deadline_passed_at e board polls in
  exists k, (2 <= k <= 10)%nat /\
    map call_schedule (id_calls r) = (1%nat, false) :: map (fun d => (d, true)) (seq 2 (k - 1)) /\
    option_map call_check (nth_error (id_calls r) 0) = Some None /\
    (forall j, (1 <= j < k - 1)%nat ->
       option_map call_check (nth_error (id_calls r) j) = Some (Some false)) /\
    exists o_prev o_last c_last,
      option_map call_output (nth_error (id_calls r) (k - 2)) = Some o_prev /\
      nth_error (id_calls r) (k - 1) = Some (k, true, o_last, Some c_last) /\
      (c_last = true -> id_depth r = (k - 1)%nat /\
         id_output r = (fst o_prev,
                        set_progress (snd o_prev) (progress_on_next_layer (snd o_last)))) /\
      (c_last = false -> k = 10%nat /\ id_depth r = 10%nat /\ id_output r = o_last).
Proof.
  intros e board polls r; unfold r, iterative_deepening; clear r.
  destruct (algorithm_next_action deadline_passed_at e board START_DEPTH false polls)
    as [[o1 e1] p1].
  unfold START_DEPTH; simpl.
  repeat match goal with
  | |- context [algorithm_next_action deadline_passed_at ?e0 board ?d true ?p0] =>
      destruct (algorithm_next_action deadline_passed_at e0 board d true p0)
        as [[? ?] ?];
      simpl;
      match goal with
      | |- context [deadline_passed_at ?q] => destruct (deadline_passed_at q) eqn:?
      end
  end;
  [ exists 2%nat | exists 3%nat | exists 4%nat | exists 5%nat | exists 6%nat
  | exists 7%nat | exists 8%nat | exists 9%nat | exists 10%nat | exists 10%nat ];
  (split; [lia|]); (split; [reflexivity|]); (split; [reflexivity|]);
  (split; [intros j Hj; do 10 (destruct j as [|j]; [first [lia | reflexivity]|]); lia|]);
  do 3 eexists; (split; [reflexivity|]); (split; [reflexivity|]);
  split; intros Hl; first [discriminate | repeat split].
Qed.

End EngineProofs.

(** ** Competition bookkeeping *)

Lemma usize_wrap_succ : forall a c : Z, usize_wrap (usize_wrap (a + 1) + c) = usize_wrap (a + 1 + c).
Proof. intros a c; unfold usize_wrap; rewrite Zplus_mod_idemp_l; reflexivity. Qed.

Lemma register_field (f : CompetitionResults -> Z) (o : GamePairOutcome)
  (Hf : forall r o', f (register_game_outcome r o') =
                     if GamePairOutcome_eq_dec o' o then usize_wrap (f r + 1) else f r) :
  forall l r, 0 <= f r < 2 ^ 64 ->
    f (fold_left register_game_outcome l r) = usize_wrap (f r + Z.of_nat (count_outcome l o)).
Proof.
  induction l as [|o' l IH]; intros r Hr; simpl.
  - unfold usize_wrap; rewrite Z.add_0_r, Z.mod_small; [reflexivity|exact Hr].
  - rewrite IH.
    2: { rewrite Hf; destruct (GamePairOutcome_eq_dec o' o); [|exact Hr].
         unfold usize_wrap; apply Z.mod_pos_bound; lia. }
    unfold count_outcome; simpl; rewrite Hf.
    destruct (GamePairOutcome_eq_dec o' o); [|reflexivity].
    rewrite usize_wrap_succ; f_equal; lia.
Qed.

(** X2: registering the pair outcomes of a competition one after the other,
    from [CompetitionResults::default()], leaves in each counter the number
    of pairs with the matching outcome (modulo [2^64]). *)
Theorem register_game_outcome_counts : forall l : list GamePairOutcome,
  let r := fold_left register_game_outcome l competition_results_default in
  algo1_wins r = usize_wrap (Z.of_nat (count_outcome l Algo1Win)) /\
  algo2_wins r = usize_wrap (Z.of_nat (count_outcome l Algo2Win)) /\
  draws r = usize_wrap (Z.of_nat (count_outcome l PairDraw)) /\
  inconclusive_same_color_win r =
    usize_wrap (Z.of_nat (count_outcome l InconclusiveSameColorWin)) /\
  inconclusive_too_long r = usize_wrap (Z.of_nat (count_outcome l PairInconclusiveTooLong)) /\
  algo1_half_wins r = usize_wrap (Z.of_nat (count_outcome l Algo1HalfWin)) /\
  algo2_half_wins r = usize_wrap (Z.of_nat (count_outcome l Algo2HalfWin)).
Proof.
  intros l r; unfold r.
  repeat split;
    lazymatch goal with
    | |- ?f (fold_left _ _ _) = usize_wrap (Z.of_nat (count_outcome _ ?o)) =>
        rewrite (register_field f o);
        [ reflexivity
        | intros [a1 a2 d sc tl h1 h2] o'; destruct o'; reflexivity
        | simpl; lia ]
    end.
Qed.

(** ** Move ordering *)

Section SortBy.
Context {A : Type} (le : A -> A -> bool).

Lemma insert_by_perm : forall x l, Permutation (x :: l) (insert_by le x l).
Proof.
  intros x l; induction l as [|y t IH]; simpl; [reflexivity|].
  destruct (le y x); [|reflexivity].
  eapply perm_trans; [apply perm_swap|]; apply perm_skip; exact IH.
Qed.

Lemma sort_by_perm_acc : forall l acc,
  Permutation (acc ++ l) (fold_left (fun acc x => insert_by le x acc) l acc).
Proof.
  induction l as [|x l IH]; intros acc; simpl; [rewrite app_nil_r; reflexivity|].
  eapply perm_trans; [|apply IH].
  eapply perm_trans; [apply Permutation_sym, Permutation_middle|].
  change (x :: acc ++ l) with ((x :: acc) ++ l).
  apply Permutation_app_tail, insert_by_perm.
Qed.

Lemma sort_by_perm : forall l, Permutation l (sort_by le l).
Proof. intros l; exact (sort_by_perm_acc l []). Qed.

Hypothesis le_total : forall x y, le x y = false -> le y x = true.

Lemma insert_by_hd : forall x y l,
  HdRel (fun a b => le a b = true) y l -> le y x = true ->
  HdRel (fun a b => le a b = true) y (insert_by le x l).
Proof.
  intros x y [|z t] Hh Hyx; simpl; [constructor; exact Hyx|].
  destruct (le z x); constructor; [inversion Hh; assumption | exact Hyx].
Qed.

Lemma insert_by_sorted : forall x l,
  Sorted (fun a b => le a b = true) l -> Sorted (fun a b => le a b = true) (insert_by le x l).
Proof.
  intros x l; induction l as [|y t IH]; intros Hs; simpl; [repeat constructor|].
  apply Sorted_inv in Hs as [Ht Hh].
  destruct (le y x) eqn:Eyx.
  - constructor; [apply IH, Ht | apply insert_by_hd; assumption].
  - constructor; [constructor; assumption | constructor; apply le_total, Eyx].
Qed.

Lemma sort_by_sorted : forall l, Sorted (fun a b => le a b = true) (sort_by le l).
Proof.
  intros l; unfold sort_by.
  assert (G : forall acc, Sorted (fun a b => le a b = true) acc ->
            Sorted (fun a b => le a b = true) (fold_left (fun acc x => insert_by le x acc) l acc)).
  { induction l as [|x l IH]; intros acc Hacc; simpl; [exact Hacc|].
    apply IH, insert_by_sorted, Hacc. }
  apply G; constructor.
Qed.

End SortBy.


Lemma order_boards_perm :
  forall {Board Move : Type} (maximise : bool)
         (boards : list (Move * Board * option (TranspositionEntry Move))),
    Permutation boards (order_boards maximise boards).
Proof. intros Board Move maximise boards; apply sort_by_perm. Qed.

(** X3: the move ordering of [node_eval_recursive] ([boards.sort_by]) is a
    permutation of the generated children, sorted by cached transposition
    evaluation (0 when there is none): descending when White is to move,
    ascending when Black is. *)
Theorem order_boards_perm_sorted :
  forall {Board Move : Type} (maximise : bool)
         (boards : list (Move * Board * option (TranspositionEntry Move))),
    Permutation boards (order_boards maximise boards) /\
    Sorted (fun x y => if maximise then order_key y <= order_key x
                       else order_key x <= order_key y)
      (order_boards maximise boards).
Proof.
  intros Board Move maximise boards; split; [apply sort_by_perm|].
  eapply Sorted_ind with (P := fun l => Sorted _ l); [constructor| |].
  2: { apply sort_by_sorted.
       intros x y; destruct maximise; intros H;
         [apply Z.leb_gt in H | apply Z.leb_gt in H]; apply Z.leb_le; lia. }
  intros a l Hl IH Hh; constructor; [exact IH|].
  destruct l as [|b l]; constructor; inversion Hh; subst.
  destruct maximise; apply Z.leb_le; assumption.
Qed.

Section ExtensionProofs.
Context {Board Move : Type} `{CR : ChessRules Board Move} `{ET : EvalTerms Board}.
Variable deadline_passed_at : nat -> bool.

Local Abbreviation State := (SearchState Board Move).

Lemma node_eval_fuel_step :
  forall fuel modules bpt deadline board depth alpha beta original ne wi bi (s : State),
    node_eval_recursive_fuel deadline_passed_at (S fuel) modules bpt deadline board depth
      alpha beta original ne wi bi s =
    node_eval_step deadline_passed_at
      (fun nb d a b ne' w bl st =>
         node_eval_recursive_fuel deadline_passed_at fuel modules bpt deadline
           nb d a b false ne' w bl st)
      modules bpt deadline board depth alpha beta ne wi bi s.
Proof. intros; destruct depth; reflexivity. Qed.

Lemma search_loop_agree (rec1 rec2 : Recurse) modules board depth maximise deadline ne n :
  forall boards i alpha beta best wi bi (s : State),
    (forall x a b w bl st, In x boards ->
       let e := extend_by modules ne n (checkers_popcnt (snd (fst x))) in
       rec1 (snd (fst x)) (depth - 1 + e)%nat a b (ne + e)%nat w bl st =
       rec2 (snd (fst x)) (depth - 1 + e)%nat a b (ne + e)%nat w bl st) ->
    search_loop deadline_passed_at rec1 modules board depth maximise deadline ne n
      i boards alpha beta best wi bi s =
    search_loop deadline_passed_at rec2 modules board depth maximise deadline ne n
      i boards alpha beta best wi bi s.
Proof.
  induction boards as [|[[m nb] te] rest IH]; intros i alpha beta best wi bi s Hag;
    [reflexivity|].
  simpl.
  assert (Hd : forall a b w bl st,
             descend rec1 nb (depth - 1 + extend_by modules ne n (checkers_popcnt nb))%nat a b
               (ne + extend_by modules ne n (checkers_popcnt nb))%nat w bl st =
             descend rec2 nb (depth - 1 + extend_by modules ne n (checkers_popcnt nb))%nat a b
               (ne + extend_by modules ne n (checkers_popcnt nb))%nat w bl st).
  { intros a b w bl st; unfold descend.
    rewrite (Hag (m, nb, te) a b w bl _ (or_introl eq_refl)); reflexivity. }
  repeat first
    [ progress rewrite !Hd
    | lazymatch goal with
      | |- context [match ?X with (_, _) => _ end] => destruct X
      | |- context [if ?c then _ else _] => destruct c
      | |- context [match ?X with Some _ => _ | None => _ end] => destruct X
      end ]; try reflexivity.
  all: apply IH; intros x a b w bl st Hx; apply Hag; right; exact Hx.
Qed.

Lemma node_eval_step_agree (rec1 rec2 : Recurse) modules bpt deadline (board : Board) depth
    alpha beta ne wi bi (s : State) :
  (forall m a b w bl st, In m (new_legal board) ->
     let e := extend_by modules ne (length (new_legal board))
                (checkers_popcnt (make_move_new board m)) in
     rec1 (make_move_new board m) (depth - 1 + e)%nat a b (ne + e)%nat w bl st =
     rec2 (make_move_new board m) (depth - 1 + e)%nat a b (ne + e)%nat w bl st) ->
  node_eval_step deadline_passed_at rec1 modules bpt deadline board depth alpha beta ne wi bi s =
  node_eval_step deadline_passed_at rec2 modules bpt deadline board depth alpha beta ne wi bi s.
Proof.
  intros Hag; destruct depth as [|d]; [reflexivity|].
  unfold node_eval_step.
  destruct (length (new_legal board) =? 0)%nat; [reflexivity|].
  rewrite (search_loop_agree rec1 rec2); [reflexivity|].
  intros x a b w bl st Hx.
  apply (Permutation_in _ (Permutation_sym (order_boards_perm _ _))) in Hx.
  apply in_map_iff in Hx as [m [<- Hm]].
  exact (Hag m a b w bl st Hm).
Qed.

(** C6 (as the code has it): a search node of [node_eval_recursive] is the
    node step in which the child reached by each legal move [m] is searched
    at depth [depth - 1 + e] with [num_extensions + e] extensions, where
    [e] is computed from the number of legal moves of [board] (the node
    being searched, not the child): any child search agreeing with the real
    one at these arguments gives the same node result. The extension [e] is
    1 exactly when SEARCH_EXTENSIONS is enabled, at most 3 extensions were
    made so far, and either [board] has exactly one legal move or the child
    has at least two checkers; otherwise it is 0. *)
Theorem search_extension_rule :
  forall fuel modules bpt deadline (board : Board) depth alpha beta original ne wi bi
         (s : State) (rec : Recurse),
    let ext (m : Move) := extend_by modules ne (length (new_legal board))
                            (checkers_popcnt (make_move_new board m)) in
    (forall m a b w bl st, In m (new_legal board) ->
       rec (make_move_new board m) (depth - 1 + ext m)%nat a b (ne + ext m)%nat w bl st =
       node_eval_recursive_fuel deadline_passed_at fuel modules bpt deadline
         (make_move_new board m) (depth - 1 + ext m)%nat a b false (ne + ext m)%nat w bl st) ->
    node_eval_recursive_fuel deadline_passed_at (S fuel) modules bpt deadline board depth
      alpha beta original ne wi bi s =
    node_eval_step deadline_passed_at rec modules bpt deadline board depth alpha beta ne wi bi s /\
    (forall m,
       (ext m = 1%nat <->
          module_enabled modules SEARCH_EXTENSIONS = true /\ (ne <= 3)%nat /\
          (length (new_legal board) = 1%nat \/ 2 <= checkers_popcnt (make_move_new board m))) /\
       (ext m = 0%nat \/ ext m = 1%nat)).
Proof.
  intros fuel modules bpt deadline board depth alpha beta original ne wi bi s rec ext Hrec.
  split.
  - rewrite node_eval_fuel_step.
    apply node_eval_step_agree.
    intros m a b w bl st Hm; symmetry; exact (Hrec m a b w bl st Hm).
  - intros m; apply extend_by_rule.
Qed.

End ExtensionProofs.

(** ** Clock polls *)

Section SearchExtras.
Context {Board Move : Type} `{CR : ChessRules Board Move} `{ET : EvalTerms Board}.
Variable deadline_passed_at : nat -> bool.

Local Abbreviation State := (SearchState Board Move).

Lemma search_loop_rel_dl (Rel : State -> State -> Prop) (Inv : State -> Prop)
  (Hrefl : forall s, Rel s s)
  (Htrans : forall s1 s2 s3, Rel s1 s2 -> Rel s2 s3 -> Rel s1 s3)
  (Hinv : forall s s', Inv s -> Rel s s' -> Inv s')
  (Hstats : forall s st, Rel s (set_stats s st))
  (deadline : bool)
  (Hpoll : deadline = true -> forall s, Rel s (snd (poll deadline_passed_at s)))
  (rec : Recurse)
  (Hdesc : forall nb d a b ne wi bi s, Inv s -> Rel s (snd (descend rec nb d a b ne wi bi s))) :
  forall modules board depth maximise ne n boards i alpha beta best wi bi s,
    Inv s ->
    Rel s (snd (search_loop deadline_passed_at rec modules board depth maximise deadline
                  ne n i boards alpha beta best wi bi s)).
Proof.
  intros modules board depth maximise ne n boards.
  induction boards as [|[[m nb] te] rest IH]; intros i alpha beta best wi bi s Hs; simpl.
  - apply Hrefl.
  - destruct (if deadline then poll deadline_passed_at s else (false, s)) as [passed s0] eqn:Ep.
    assert (Hr0 : Rel s s0).
    { destruct deadline.
      - pose proof (Hpoll eq_refl s) as Hp; rewrite Ep in Hp; exact Hp.
      - injection Ep as _ <-; apply Hrefl. }
    assert (Hs0 : Inv s0) by eauto.
    set (s1 := if (max_depth (ss_stats s0) <? depth)%nat
               then set_stats s0 (set_max_depth (ss_stats s0) depth) else s0).
    assert (Hr1 : Rel s s1).
    { unfold s1; destruct (max_depth (ss_stats s0) <? depth)%nat; eauto. }
    assert (Hs1 : Inv s1) by eauto.
    clearbody s1.
    destruct passed; simpl; [eauto|].
    destruct (module_enabled modules SKIP_BAD_MOVES && (n * 1 <? i)%nat)%bool; simpl; [exact Hr1|].
    lazymatch goal with |- context [match ?X with (_, _) => _ end] => destruct X as [evaluation s2] eqn:E2 end.
    assert (Hr2 : Rel s s2).
    { destruct te as [e|]; [destruct (depth <=? te_depth e)%nat|].
      - injection E2 as _ <-; eauto.
      - pose proof (Hdesc nb (depth - 1 + extend_by modules ne n (checkers_popcnt nb))%nat alpha beta
          (ne + extend_by modules ne n (checkers_popcnt nb))%nat wi bi s1 Hs1) as Hd.
        rewrite E2 in Hd; eauto.
      - pose proof (Hdesc nb (depth - 1 + extend_by modules ne n (checkers_popcnt nb))%nat alpha beta
          (ne + extend_by modules ne n (checkers_popcnt nb))%nat wi bi s1 Hs1) as Hd.
        rewrite E2 in Hd; eauto. }
    assert (Hr3 : Rel s (set_stats s2 (incr_nodes (ss_stats s2)))) by eauto.
    assert (Hs3 : Inv (set_stats s2 (incr_nodes (ss_stats s2)))) by eauto.
    lazymatch goal with |- context [match ?X with (_, _) => _ end] => destruct X as [alpha1 beta1] end.
    destruct (module_enabled modules ALPHA_BETA && (beta1 <? alpha1))%bool; simpl; [eauto|].
    lazymatch goal with |- context [match ?X with (_, _) => _ end] => destruct X as [wi1 bi1] end.
    eauto.
Qed.

Lemma descend_polls (rec : Recurse) (R : nat -> nat -> Prop) :
  forall nb d a b ne wi bi (s : State),
    R (ss_polls s) (ss_polls (snd (rec nb d a b ne wi bi (set_pred s
         (map_insert board_eq_dec nb (u32_wrap (get_or0 (ss_pred s) nb + 1)) (ss_pred s)))))) ->
    R (ss_polls s) (ss_polls (snd (descend rec nb d a b ne wi bi s))).
Proof.
  intros nb d a b ne wi bi s H; unfold descend.
  destruct (rec _ _ _ _ _ _ _ _) as [ev sr]; exact H.
Qed.

Lemma node_eval_fuel_polls :
  forall fuel modules bpt deadline board depth alpha beta original ne wi bi (s : State),
    let s' := snd (node_eval_recursive_fuel deadline_passed_at fuel modules bpt deadline
                     board depth alpha beta original ne wi bi s) in
    (ss_polls s <= ss_polls s')%nat /\ (deadline = false -> ss_polls s' = ss_polls s).
Proof.
  induction fuel as [|fuel IH];
    intros modules bpt deadline board depth alpha beta original ne wi bi s s'; unfold s';
    destruct depth as [|depth]; simpl; try (split; [lia | reflexivity]).
  - destruct (length (new_legal board) =? 0)%nat; split; reflexivity || lia.
  - destruct (length (new_legal board) =? 0)%nat; [split; reflexivity || lia|].
    lazymatch goal with |- context [match ?X with (_, _) => _ end] =>
      destruct X as [[exit best] s1] eqn:El end.
    assert (Hr : (ss_polls s <= ss_polls s1)%nat /\
                 (deadline = false -> ss_polls s1 = ss_polls s)).
    { lazymatch type of El with search_loop _ ?rec ?mo ?bo ?de ?ma ?dl ?ne' ?n ?i ?bs ?a ?b ?be ?w ?bl ?st = _ =>
        split;
        [ pose proof (search_loop_rel_dl (fun x y => ss_polls x <= ss_polls y)%nat (fun _ => True)
                       (fun x => le_n _) (fun x y z => Nat.le_trans _ _ _)
                       (fun _ _ _ _ => I) (fun x st => le_n _) dl
                       (fun _ x => le_S _ _ (le_n _)) rec
                       (fun nb d a b ne wi bi st _ =>
                          descend_polls rec (fun x y => x <= y)%nat nb d a b ne wi bi st
                            (proj1 (IH _ _ _ _ _ _ _ _ _ _ _ (set_pred st _))))
                       mo bo de ma ne' n bs i a b be w bl st I) as HL
        | intros Hdl;
          pose proof (search_loop_rel_dl (fun x y => ss_polls x = ss_polls y) (fun _ => True)
                       (fun x => eq_refl) (fun x y z => @eq_trans _ _ _ _)
                       (fun _ _ _ _ => I) (fun x st => eq_refl) dl
                       (fun Ht => ltac:(rewrite Hdl in Ht; discriminate)) rec
                       (fun nb d a b ne wi bi st _ =>
                          descend_polls rec (fun x y => x = y) nb d a b ne wi bi st
                            (eq_sym (proj2 (IH _ _ _ _ _ _ _ _ _ _ _ (set_pred st _)) Hdl)))
                       mo bo de ma ne' n bs i a b be w bl st I) as HL ];
        rewrite El in HL; [exact HL | symmetry; exact HL]
      end. }
    destruct exit; [exact Hr|].
    simpl; lazymatch goal with |- context [if ?c then _ else _] => destruct c end;
      [|exact Hr].
    destruct (eval best); exact Hr.
Qed.

Lemma search_loop_action (rec : Recurse) modules board depth maximise deadline ne n :
  forall boards i alpha beta (best : Evaluation Move) wi bi (s : State),
    (forall x, In x boards -> In (fst (fst x)) (new_legal board)) ->
    legal_action board (next_action best) ->
    legal_action board (next_action (snd (fst (search_loop deadline_passed_at rec modules
      board depth maximise deadline ne n i boards alpha beta best wi bi s)))).
Proof.
  induction boards as [|[[m nb] te] rest IH]; intros i alpha beta best wi bi s Hin Hb;
    simpl; [exact Hb|].
  destruct (if deadline then poll deadline_passed_at s else (false, s)) as [passed s0].
  destruct passed; [exact Hb|].
  destruct (module_enabled modules SKIP_BAD_MOVES && _)%bool; [exact Hb|].
  lazymatch goal with |- context [match ?X with (_, _) => _ end] =>
    destruct X as [evaluation s2] end.
  assert (Hb1 : legal_action board (next_action
            (if new_eval_is_better maximise best evaluation
             then mkEvaluation (eval evaluation) (Some (MakeMove m))
                    (white_incremental_psqt_eval best) (black_incremental_psqt_eval best)
             else best))).
  { destruct (new_eval_is_better maximise best evaluation); [|exact Hb].
    right; exists m; split; [reflexivity|].
    exact (Hin (m, nb, te) (or_introl eq_refl)). }
  lazymatch goal with |- context [match ?X with (_, _) => _ end] =>
    destruct X as [alpha1 beta1] end.
  destruct (module_enabled modules ALPHA_BETA && (beta1 <? alpha1))%bool; [exact Hb1|].
  lazymatch goal with |- context [match ?X with (_, _) => _ end] =>
    destruct X as [wi1 bi1] end.
  apply IH; [intros x Hx; apply Hin; right; exact Hx | exact Hb1].
Qed.

Lemma order_boards_in_legal : forall modules (s : State) board maximise x,
  In x (order_boards maximise
          (map (fun m => let nb := make_move_new board m in
                         (m, nb, if module_enabled modules TRANSPOSITION_TABLE
                                 then ss_tt s nb else None)) (new_legal board))) ->
  In (fst (fst x)) (new_legal board).
Proof.
  intros modules s board maximise x Hx.
  apply (Permutation_in _ (Permutation_sym (order_boards_perm maximise _))) in Hx.
  apply in_map_iff in Hx as [m [<- Hm]]; exact Hm.
Qed.

Lemma node_eval_fuel_legal :
  forall fuel modules bpt deadline board depth alpha beta original ne wi bi (s : State),
    legal_action board
      (next_action (fst (node_eval_recursive_fuel deadline_passed_at fuel modules bpt deadline
                           board depth alpha beta original ne wi bi s))).
Proof.
  intros fuel modules bpt deadline board depth alpha beta original ne wi bi s.
  destruct fuel as [|fuel]; destruct depth as [|depth]; simpl; try (left; reflexivity).
  - destruct (length (new_legal board) =? 0)%nat; [|left; reflexivity].
    left; unfold set_eval; destruct (checkers_popcnt board =? 0); reflexivity.
  - destruct (length (new_legal board) =? 0)%nat.
    { left; unfold set_eval; destruct (checkers_popcnt board =? 0); reflexivity. }
    lazymatch goal with |- context [match ?X with (_, _) => _ end] =>
      destruct X as [[exit best] s1] eqn:El end.
    assert (Hb : legal_action board (next_action best)).
    { lazymatch type of El with search_loop _ ?rec ?mo ?bo ?de ?ma ?dl ?ne' ?n ?i ?bs ?a ?b ?be ?w ?bl ?st = _ =>
        pose proof (search_loop_action rec mo bo de ma dl ne' n bs i a b be w bl st
                      (order_boards_in_legal _ _ _ _) (or_introl eq_refl)) as H
      end.
      rewrite El in H; exact H. }
    destruct exit; exact Hb.
Qed.

(** X4: the move proposed by the fixed-depth search, if any, is a legal move
    of the searched position: [node_eval_recursive] returns no [next_action]
    or [MakeMove m] with [m] among [MoveGen::new_legal(board)]. *)
Theorem search_action_legal :
  forall modules bpt deadline board depth alpha beta original ne wi bi (s : State),
    legal_action board
      (next_action (fst (node_eval_recursive deadline_passed_at modules bpt deadline board
                           depth alpha beta original ne wi bi s))).
Proof.
  intros modules bpt deadline board depth alpha beta original ne wi bi s.
  apply node_eval_fuel_legal.
Qed.

Lemma quiet_sub : forall lo hi lo' hi',
  (lo <= lo')%nat -> (hi' <= hi)%nat ->
  quiet_between deadline_passed_at lo hi -> quiet_between deadline_passed_at lo' hi'.
Proof. intros lo hi lo' hi' H1 H2 Hq n Hn; apply Hq; lia. Qed.

Lemma search_loop_polls (rec : Recurse)
  (Hpolls : forall nb d a b ne w bl (st : State),
      (ss_polls st <= ss_polls (snd (rec nb d a b ne w bl st)))%nat)
  modules board depth maximise deadline ne n boards i alpha beta best wi bi (s : State) :
  (ss_polls s <= ss_polls (snd (search_loop deadline_passed_at rec modules board depth
                                  maximise deadline ne n i boards alpha beta best wi bi s)))%nat.
Proof.
  exact (search_loop_rel_dl (fun x y => ss_polls x <= ss_polls y)%nat (fun _ => True)
           (fun x => le_n _) (fun x y z => Nat.le_trans _ _ _)
           (fun _ _ _ _ => I) (fun x st => le_n _) deadline
           (fun _ x => le_S _ _ (le_n _)) rec
           (fun nb d a b ne wi bi st _ =>
              descend_polls rec (fun x y => x <= y)%nat nb d a b ne wi bi st
                (Hpolls _ _ _ _ _ _ _ (set_pred st _)))
           modules board depth maximise ne n boards i alpha beta best wi bi s I).
Qed.

Lemma search_loop_complete (rec : Recurse) modules board depth maximise deadline ne n
  (Hpolls : forall nb d a b ne' w bl (st : State),
      (ss_polls st <= ss_polls (snd (rec nb d a b ne' w bl st)))%nat)
  (Hrec : forall nb a b w bl st,
     let ext := extend_by modules ne n (checkers_popcnt nb) in
     quiet_between deadline_passed_at (ss_polls st)
       (ss_polls (snd (rec nb (depth - 1 + ext)%nat a b (ne + ext)%nat w bl st))) ->
     eval (fst (rec nb (depth - 1 + ext)%nat a b (ne + ext)%nat w bl st)) <> None) :
  forall boards i alpha beta (best : Evaluation Move) wi bi (s : State),
    (forall x, In x boards -> In (fst (fst x)) (new_legal board)) ->
    (i + length boards <= n)%nat ->
    (eval best = None \/ (eval best <> None /\ proposes_legal_move board (next_action best))) ->
    (boards <> [] \/ (eval best <> None /\ proposes_legal_move board (next_action best))) ->
    let r := search_loop deadline_passed_at rec modules board depth maximise deadline ne n
               i boards alpha beta best wi bi s in
    quiet_between deadline_passed_at (ss_polls s) (ss_polls (snd r)) ->
    eval (snd (fst r)) <> None /\ proposes_legal_move board (next_action (snd (fst r))).
Proof.
  induction boards as [|[[m nb] te] rest IH];
    intros i alpha beta best wi bi s Hin Hlen Hb Hne r; unfold r; clear r.
  - intros _; destruct Hne as [C|G]; [congruence|exact G].
  - simpl.
    destruct (if deadline then poll deadline_passed_at s else (false, s)) as [passed s0] eqn:Ep.
    assert (Hs0 : (ss_polls s <= ss_polls s0)%nat /\
                  (passed = true -> deadline_passed_at (ss_polls s) = true /\
                                    ss_polls s0 = S (ss_polls s))).
    { destruct deadline.
      - unfold poll in Ep; injection Ep as <- <-; simpl; split; [lia|auto].
      - injection Ep as <- <-; split; [lia|discriminate]. }
    destruct Hs0 as [Hs0 Hp0].
    destruct passed.
    { intros Hq; exfalso; destruct (Hp0 eq_refl) as [Ht Hps].
      simpl in Hq; rewrite (Hq (ss_polls s)) in Ht; [discriminate|lia]. }
    destruct (module_enabled modules SKIP_BAD_MOVES && (n * 1 <? i)%nat)%bool eqn:Esk.
    { apply andb_true_iff in Esk as [_ Esk]; apply Nat.ltb_lt in Esk; simpl in Hlen; lia. }
    set (s1 := if (max_depth (ss_stats s0) <? depth)%nat
               then set_stats s0 (set_max_depth (ss_stats s0) depth) else s0).
    assert (Hs1 : ss_polls s1 = ss_polls s0)
      by (unfold s1; destruct (max_depth (ss_stats s0) <? depth)%nat; reflexivity).
    clearbody s1.
    lazymatch goal with
    | |- context [match ?X with (_, _) => _ end] => destruct X as [evaluation s2] eqn:E2
    end.
    assert (Hev : (ss_polls s1 <= ss_polls s2)%nat /\
                  (quiet_between deadline_passed_at (ss_polls s1) (ss_polls s2) ->
                   eval evaluation <> None)).
    { assert (Hd : forall ev sr, descend rec nb
                 (depth - 1 + extend_by modules ne n (checkers_popcnt nb))%nat alpha beta
                 (ne + extend_by modules ne n (checkers_popcnt nb))%nat wi bi s1 = (ev, sr) ->
                 (ss_polls s1 <= ss_polls sr)%nat /\
                  (quiet_between deadline_passed_at (ss_polls s1) (ss_polls sr) -> eval ev <> None)).
      { intros ev sr Ed; unfold descend in Ed.
        lazymatch type of Ed with
        | context [rec ?a ?b ?c ?d ?e ?f ?g ?h] =>
            pose proof (Hrec a c d f g h) as Hr; pose proof (Hpolls a b c d e f g h) as Hp
        end; simpl in Hr, Hp.
        destruct (rec _ _ _ _ _ _ _ _) as [ev' sr'] eqn:Er.
        injection Ed as <- <-; simpl in *; split; [exact Hp | exact Hr]. }
      destruct te as [e|].
      - destruct (depth <=? te_depth e)%nat.
        + injection E2 as <- <-; simpl; split; [lia | discriminate].
        + exact (Hd _ _ E2).
      - exact (Hd _ _ E2). }
    destruct Hev as [Hs2 Hev].
    assert (Hb1 : eval evaluation <> None ->
                  eval (if new_eval_is_better maximise best evaluation
                        then mkEvaluation (eval evaluation) (Some (MakeMove m))
                               (white_incremental_psqt_eval best)
                               (black_incremental_psqt_eval best)
                        else best) <> None /\
                  proposes_legal_move board
                    (next_action (if new_eval_is_better maximise best evaluation
                        then mkEvaluation (eval evaluation) (Some (MakeMove m))
                               (white_incremental_psqt_eval best)
                               (black_incremental_psqt_eval best)
                        else best))).
    { intros Hne'; destruct (new_eval_is_better maximise best evaluation) eqn:Eb.
      - split; [exact Hne'|]. exists m; split; [reflexivity|].
        exact (Hin (m, nb, te) (or_introl eq_refl)).
      - destruct Hb as [Hn|G]; [|exact G].
        unfold new_eval_is_better in Eb; rewrite Hn in Eb.
        destruct (eval evaluation); [discriminate | contradiction]. }
    set (best1 := if new_eval_is_better maximise best evaluation
                  then mkEvaluation (eval evaluation) (Some (MakeMove m))
                         (white_incremental_psqt_eval best)
                         (black_incremental_psqt_eval best)
                  else best) in *.
    clearbody best1.
    lazymatch goal with
    | |- context [match ?X with (_, _) => _ end] => destruct X as [alpha1 beta1]
    end.
    destruct (module_enabled modules ALPHA_BETA && (beta1 <? alpha1))%bool.
    + intros Hq; simpl in Hq; apply Hb1, Hev.
      apply (quiet_sub _ _ _ _ (Nat.le_trans _ _ _ Hs0 (Nat.eq_le_incl _ _ (eq_sym Hs1)))
               (le_n _) Hq).
    + lazymatch goal with
      | |- context [match ?X with (_, _) => _ end] => destruct X as [wi1 bi1]
      end.
      intros Hq.
      pose proof (search_loop_polls rec Hpolls modules board depth maximise deadline ne n rest
                    (S i) alpha1 beta1
                    (mkEvaluation (eval best1) (next_action best1) (Some wi1) (Some bi1))
                    wi1 bi1 (set_stats s2 (incr_nodes (ss_stats s2)))) as Hfin.
      simpl in Hfin.
      assert (Hg : eval best1 <> None /\ proposes_legal_move board (next_action best1)).
      { apply Hb1, Hev.
        exact (quiet_sub _ _ _ _ (Nat.le_trans _ _ _ Hs0 (Nat.eq_le_incl _ _ (eq_sym Hs1)))
                 (Nat.le_trans _ _ _ (le_n _) Hfin) Hq). }
      apply (IH (S i) alpha1 beta1 _ wi1 bi1 _).
      * intros x Hx; apply Hin; right; exact Hx.
      * simpl in Hlen; lia.
      * right; exact Hg.
      * right; exact Hg.
      * simpl. exact (quiet_sub _ _ _ _ (Nat.le_trans _ _ _ Hs0
                        (Nat.le_trans _ _ _ (Nat.eq_le_incl _ _ (eq_sym Hs1)) Hs2))
                        (le_n _) Hq).
Qed.

Lemma extend_by_cases : forall modules ne n c,
  extend_by modules ne n c = 0%nat \/ (extend_by modules ne n c = 1%nat /\ (ne <= 3)%nat).
Proof.
  intros modules ne n c; unfold extend_by.
  destruct (3 <? ne)%nat eqn:E; [rewrite orb_true_r; left; reflexivity|].
  apply Nat.ltb_ge in E; rewrite orb_false_r.
  destruct (negb _); [left; reflexivity|].
  destruct (_ || _)%bool; [right; split; [reflexivity|lia] | left; reflexivity].
Qed.

Lemma search_fuel_child : forall d ne ext fuel,
  (ext = 0%nat \/ (ext = 1%nat /\ (ne <= 3)%nat)) ->
  (search_fuel (S d) ne <= S fuel)%nat ->
  (search_fuel (S d - 1 + ext) (ne + ext) <= fuel)%nat.
Proof.
  intros d ne ext fuel Hext Hf; unfold search_fuel in *.
  destruct (Nat.min_spec ne 4) as [[_ M1]|[_ M1]];
  destruct (Nat.min_spec (ne + ext) 4) as [[_ M2]|[_ M2]]; lia.
Qed.

Lemma node_eval_fuel_complete :
  forall fuel modules bpt deadline board depth alpha beta original ne wi bi (s : State),
    (search_fuel depth ne <= fuel)%nat ->
    let r := node_eval_recursive_fuel deadline_passed_at fuel modules bpt deadline
               board depth alpha beta original ne wi bi s in
    quiet_between deadline_passed_at (ss_polls s) (ss_polls (snd r)) ->
    eval (fst r) <> None /\
    (depth <> 0%nat -> new_legal board <> [] ->
     proposes_legal_move board (next_action (fst r))).
Proof.
  induction fuel as [|fuel IH];
    intros modules bpt deadline board depth alpha beta original ne wi bi s Hf r;
    unfold r; clear r.
  - unfold search_fuel in Hf; lia.
  - destruct depth as [|d].
    + intros _; simpl; split; [discriminate | intros C; contradiction C; reflexivity].
    + simpl.
      destruct (length (new_legal board) =? 0)%nat eqn:E0.
      { intros _; split; [discriminate|].
        intros _ C; apply Nat.eqb_eq, length_zero_iff_nil in E0; contradiction. }
      lazymatch goal with |- context [match ?X with (_, _) => _ end] =>
        destruct X as [[exit best] s1] eqn:El end.
      assert (Hq1 : quiet_between deadline_passed_at (ss_polls s) (ss_polls s1) ->
                    eval best <> None /\ proposes_legal_move board (next_action best)).
      { intros Hq.
        lazymatch type of El with
        | search_loop _ ?rec ?mo ?bo ?de ?ma ?dl ?ne' ?n ?i ?bs ?a ?b ?be ?w ?bl ?st = _ =>
          pose proof (search_loop_complete rec mo bo de ma dl ne' n
                        (fun nb d a b ne'' w bl st =>
                           proj1 (node_eval_fuel_polls fuel modules bpt
                                    deadline nb d a b false ne'' w bl st)))
            as HL;
          specialize (HL ltac:(intros nb a' b' w' bl' st' ext Hq';
                               apply (IH modules bpt deadline nb _ a' b' false _ w' bl' st');
                               [ apply search_fuel_child; [apply extend_by_cases | exact Hf]
                               | exact Hq' ])
                       bs i a b be w bl st)
        end.
        rewrite El in HL; simpl in HL; apply HL.
        - intros x Hx; exact (order_boards_in_legal modules s board _ x Hx).
        - rewrite <- (Permutation_length (order_boards_perm _ _)), length_map; lia.
        - left; reflexivity.
        - left; intros C.
          apply Nat.eqb_neq in E0; apply E0.
          apply (f_equal (@length _)) in C.
          rewrite <- (Permutation_length (order_boards_perm _ _)), length_map in C; exact C.
        - exact Hq. }
      destruct exit.
      * intros Hq; simpl in Hq; destruct (Hq1 Hq) as [G1 G2]; split; [exact G1 | intros _ _; exact G2].
      * simpl; lazymatch goal with |- context [if ?c then _ else _] => destruct c end.
        -- destruct (eval best) eqn:Eb; intros Hq; simpl in Hq; destruct (Hq1 Hq) as [G1 G2];
             (split; [exact G1 | intros _ _; exact G2]).
        -- intros Hq; simpl in Hq; destruct (Hq1 Hq) as [G1 G2]; split; [exact G1 | intros _ _; exact G2].
Qed.

(** X5: the fixed-depth search polls the clock only when it was given the
    deadline: the poll counter never decreases, and with [deadline = false]
    it is left unchanged. *)
Theorem search_clock_polls :
  forall modules bpt deadline board depth alpha beta original ne wi bi (s : State),
    let s' := snd (node_eval_recursive deadline_passed_at modules bpt deadline board
                     depth alpha beta original ne wi bi s) in
    (ss_polls s <= ss_polls s')%nat /\ (deadline = false -> ss_polls s' = ss_polls s).
Proof.
  intros modules bpt deadline board depth alpha beta original ne wi bi s.
  apply node_eval_fuel_polls.
Qed.

(** X6: a fixed-depth search during which no clock poll found the deadline
    passed returns an evaluation ([eval] is not [None]) and, when the depth
    is positive and the position has legal moves, proposes a legal move. *)
Theorem search_complete_when_quiet :
  forall modules bpt deadline board depth alpha beta original ne wi bi (s : State),
    let r := node_eval_recursive deadline_passed_at modules bpt deadline board
               depth alpha beta original ne wi bi s in
    quiet_between deadline_passed_at (ss_polls s) (ss_polls (snd r)) ->
    eval (fst r) <> None /\
    (depth <> 0%nat -> new_legal board <> [] ->
     proposes_legal_move board (next_action (fst r))).
Proof.
  intros modules bpt deadline board depth alpha beta original ne wi bi s.
  exact (node_eval_fuel_complete (search_fuel depth ne) modules bpt deadline board depth
           alpha beta original ne wi bi s (le_n _)).
Qed.

(** X7: a fixed-depth search run without the deadline always returns an
    evaluation and, when the depth is positive and the position has legal
    moves, proposes a legal move. *)
Theorem search_complete_without_deadline :
  forall modules bpt board depth alpha beta original ne wi bi (s : State),
    let r := node_eval_recursive deadline_passed_at modules bpt false board
               depth alpha beta original ne wi bi s in
    eval (fst r) <> None /\
    (depth <> 0%nat -> new_legal board <> [] ->
     proposes_legal_move board (next_action (fst r))).
Proof.
  intros modules bpt board depth alpha beta original ne wi bi s r.
  apply (node_eval_fuel_complete (search_fuel depth ne) modules bpt false board depth
           alpha beta original ne wi bi s (le_n _)).
  intros k Hk.
  rewrite (proj2 (node_eval_fuel_polls (search_fuel depth ne) modules bpt false board depth
                    alpha beta original ne wi bi s) eq_refl) in Hk.
  lia.
Qed.

End SearchExtras.

Section EngineExtras.
Context {Board Move : Type} `{CR : ChessRules Board Move} `{ET : EvalTerms Board}.
Variable deadline_passed_at : nat -> bool.

Local Abbreviation Engine := (Algorithm Board Move).

Lemma algorithm_next_action_legal : forall (e : Engine) board depth deadline polls,
  legal_action board
    (fst (fst (fst (algorithm_next_action deadline_passed_at e board depth deadline polls)))).
Proof.
  intros e board depth deadline polls; unfold algorithm_next_action, node_eval_recursive.
  match goal with
  | |- context [node_eval_recursive_fuel ?d ?f ?mo ?bp ?dl ?b ?de ?a ?be ?o ?ne ?w ?bl ?st] =>
      pose proof (node_eval_fuel_legal d f mo bp dl b de a be o ne w bl st) as H;
      destruct (node_eval_recursive_fuel d f mo bp dl b de a be o ne w bl st)
  end.
  exact H.
Qed.

Lemma algorithm_next_action_complete : forall (e : Engine) board depth deadline polls,
  (1 <= depth)%nat -> new_legal board <> [] ->
  let r := algorithm_next_action deadline_passed_at e board depth deadline polls in
  quiet_between deadline_passed_at polls (snd r) ->
  proposes_legal_move board (fst (fst (fst r))).
Proof.
  intros e board depth deadline polls Hd Hl; unfold algorithm_next_action, node_eval_recursive.
  match goal with
  | |- context [node_eval_recursive_fuel ?d ?f ?mo ?bp ?dl ?b ?de ?a ?be ?o ?ne ?w ?bl ?st] =>
      pose proof (node_eval_fuel_complete d f mo bp dl b de a be o ne w bl st (le_n _)) as H;
      destruct (node_eval_recursive_fuel d f mo bp dl b de a be o ne w bl st)
  end.
  simpl in *; intros Hq.
  apply (proj2 (H Hq)); [lia | exact Hl].
Qed.

Lemma algorithm_next_action_no_deadline_polls : forall (e : Engine) board depth polls,
  snd (algorithm_next_action deadline_passed_at e board depth false polls) = polls.
Proof.
  intros e board depth polls; unfold algorithm_next_action, node_eval_recursive.
  match goal with
  | |- context [node_eval_recursive_fuel ?d ?f ?mo ?bp ?dl ?b ?de ?a ?be ?o ?ne ?w ?bl ?st] =>
      pose proof (proj2 (node_eval_fuel_polls d f mo bp dl b de a be o ne w bl st) eq_refl) as H;
      destruct (node_eval_recursive_fuel d f mo bp dl b de a be o ne w bl st)
  end.
  exact H.
Qed.

Lemma deepen_legal : forall fuel (e : Engine) board depth best bd polls calls,
  legal_action board (fst best) ->
  legal_action board
    (fst (id_output (deepen deadline_passed_at fuel e board depth best bd polls calls))).
Proof.
  induction fuel as [|fuel IH]; intros e board depth best bd polls calls Hb; [exact Hb|].
  simpl.
  pose proof (algorithm_next_action_legal e board depth true polls) as Hl.
  destruct (algorithm_next_action deadline_passed_at e board depth true polls)
    as [[o e1] p1]; simpl in Hl.
  destruct (deadline_passed_at p1); [exact Hb|].
  apply IH; exact Hl.
Qed.

Lemma iterative_deepening_legal : forall (e : Engine) board polls,
  legal_action board (fst (id_output (iterative_deepening deadline_passed_at e board polls))).
Proof.
  intros e board polls; unfold iterative_deepening.
  pose proof (algorithm_next_action_legal e board START_DEPTH false polls) as Hl.
  destruct (algorithm_next_action deadline_passed_at e board START_DEPTH false polls)
    as [[o e1] p1]; simpl in Hl.
  apply deepen_legal; exact Hl.
Qed.

Lemma monotone_quiet : forall lo p,
  monotone_clock deadline_passed_at -> deadline_passed_at p = false ->
  quiet_between deadline_passed_at lo p.
Proof.
  intros lo p Hm Hp k Hk.
  destruct (deadline_passed_at k) eqn:Ek; [|reflexivity].
  rewrite (Hm k p ltac:(lia) Ek) in Hp; discriminate.
Qed.

Lemma deepen_complete : forall fuel (e : Engine) board depth best bd polls calls,
  monotone_clock deadline_passed_at -> new_legal board <> [] -> (1 <= depth)%nat ->
  proposes_legal_move board (fst best) ->
  proposes_legal_move board
    (fst (id_output (deepen deadline_passed_at fuel e board depth best bd polls calls))).
Proof.
  induction fuel as [|fuel IH]; intros e board depth best bd polls calls Hm Hl Hd Hb;
    [exact Hb|].
  simpl.
  pose proof (algorithm_next_action_complete e board depth true polls Hd Hl) as Hc.
  destruct (algorithm_next_action deadline_passed_at e board depth true polls)
    as [[o e1] p1]; simpl in Hc.
  destruct (deadline_passed_at p1) eqn:Ep; [exact Hb|].
  apply IH; [exact Hm | exact Hl | lia | apply Hc, monotone_quiet; assumption].
Qed.

Lemma iterative_deepening_complete : forall (e : Engine) board polls,
  monotone_clock deadline_passed_at -> new_legal board <> [] ->
  proposes_legal_move board (fst (id_output (iterative_deepening deadline_passed_at e board polls))).
Proof.
  intros e board polls Hm Hl; unfold iterative_deepening.
  pose proof (algorithm_next_action_complete e board START_DEPTH false polls (le_n _) Hl) as Hc.
  pose proof (algorithm_next_action_no_deadline_polls e board START_DEPTH polls) as Hp.
  destruct (algorithm_next_action deadline_passed_at e board START_DEPTH false polls)
    as [[o e1] p1]; simpl in Hc, Hp; subst p1.
  apply deepen_complete; [exact Hm | exact Hl | unfold START_DEPTH; lia |].
  apply Hc; intros k Hk; lia.
Qed.

(** X8: the engine never plays an illegal move: whenever
    [next_action_iterative_deepening] returns [MakeMove m], [m] is among
    [MoveGen::new_legal(board)]. *)
Theorem played_move_legal : forall (e : Engine) board polls m,
  returned_action (next_action_iterative_deepening deadline_passed_at e board polls)
    = Some (MakeMove m) ->
  In m (new_legal board).
Proof.
  intros e board polls m Hr.
  unfold next_action_iterative_deepening in Hr.
  pose proof (iterative_deepening_legal (entry_engine e board) board polls) as Hl.
  destruct (iterative_deepening deadline_passed_at (entry_engine e board) board polls)
    as [[[[out d] e2] p2] calls].
  unfold id_output in Hl; simpl in Hl.
  destruct Hl as [Hn | [m' [Hm' Hin]]].
  - rewrite Hn in Hr; simpl in Hr.
    destruct (status board); simpl in Hr; congruence.
  - rewrite Hm' in Hr; simpl in Hr.
    destruct (3 <=? _); simpl in Hr; congruence.
Qed.

(** X9: with a clock that stays passed once passed, in a position with
    legal moves [next_action_iterative_deepening] never panics: it returns
    a legal move [m], turned into [DeclareDraw] exactly when the position
    after [m] already has count at least 3 after the entry increment. *)
Theorem next_action_never_panics : forall (e : Engine) board polls,
  monotone_clock deadline_passed_at -> new_legal board <> [] ->
  exists m, In m (new_legal board) /\
    returned_action (next_action_iterative_deepening deadline_passed_at e board polls)
      = Some (if 3 <=? get_or0 (board_played_times (entry_engine e board)) (make_move_new board m)
              then DeclareDraw else MakeMove m).
Proof.
  intros e board polls Hm Hl.
  pose proof (iterative_deepening_complete (entry_engine e board) board polls Hm Hl)
    as [m [Hm' Hin]].
  pose proof (iterative_deepening_played deadline_passed_at (entry_engine e board) board polls)
    as Hp.
  exists m; split; [exact Hin|].
  unfold next_action_iterative_deepening.
  destruct (iterative_deepening deadline_passed_at (entry_engine e board) board polls)
    as [[[[out d] e2] p2] calls].
  unfold id_output, id_engine in *; simpl in Hm', Hp.
  rewrite Hm'; simpl; rewrite Hp; reflexivity.
Qed.

End EngineExtras.

(** * Concrete instances *)

Import ToyRules.

(** C1 at the toy stalemate 0 (White to move, no checker): the search of
    depth 1 returns [f32::MIN]. *)
Lemma no_legal_moves_search_value_witness :
  new_legal 0%nat = [] /\ checkers_popcnt 0%nat = 0 /\
  eval (fst (node_eval_recursive ToyRules.never_passed 0 (fun _ => None) false
               0%nat 1%nat f32_MIN f32_MAX true 0%nat 0 0 ToyRules.empty_state))
  = Some f32_MIN.
Proof.
  split; [reflexivity|]; split; [reflexivity|].
  exact (proj1 (no_legal_moves_search_value ToyRules.never_passed 0 (fun _ => None) false
                  0%nat 0%nat f32_MIN f32_MAX true 0%nat 0 0 ToyRules.empty_state
                  eq_refl eq_refl)).
Defined.

(** C2 on a depth-4 search from 5 with ALPHA_BETA and TRANSPOSITION_TABLE
    and a deadline passing at the fifth poll. *)
Lemma speculative_counter_restored_witness :
  u32_counter (ss_pred ToyRules.empty_state) /\
  forall b,
    get_or0 (ss_pred (snd (node_eval_recursive (fun n => (4 <=? n)%nat) 6 (fun _ => None) true
                             5%nat 4%nat f32_MIN f32_MAX true 0%nat 0 0 ToyRules.empty_state))) b
    = get_or0 (ss_pred ToyRules.empty_state) b.
Proof.
  assert (H : u32_counter (ss_pred ToyRules.empty_state)) by (intros b v Hv; discriminate).
  split; [exact H|].
  exact (proj1 (speculative_counter_restored (fun n => (4 <=? n)%nat) 6 (fun _ => None) true
                  5%nat 4%nat f32_MIN f32_MAX true 0%nat 0 0 ToyRules.empty_state H)).
Defined.

(** C3 on the S3 shuffle: position 2 was recorded twice, the only move from
    1 leads to it (its third occurrence), and the action returned is that
    move, not [DeclareDraw]. *)
Lemma repetition_draw_threshold_witness :
  get_or0 (board_played_times (entry_engine ToyRules.s3_engine 1%nat)) 2%nat = 2 /\
  returned_action (next_action_iterative_deepening ToyRules.never_passed
                     ToyRules.s3_engine 1%nat 0%nat) = Some (MakeMove 2%nat).
Proof.
  split; [vm_compute; reflexivity|].
  pose proof (repetition_draw_threshold ToyRules.never_passed ToyRules.s3_engine 1%nat 0%nat
                2%nat) as H.
  specialize (H ltac:(vm_compute; reflexivity)).
  rewrite H; vm_compute; reflexivity.
Defined.

(** C6: from position 1 (one legal move) to position 2 (two legal replies,
    no checker) the search extends by one, although the child has more than
    one reply and is not in double check; the depth-1 search from 1 thus
    evaluates the two leaves 3 and 4 instead of the single leaf 2. *)
Lemma search_extension_parent_count_counterexample :
  length (new_legal (make_move_new 1%nat 2%nat)) = 2%nat /\
  checkers_popcnt (make_move_new 1%nat 2%nat) = 0 /\
  extend_by SEARCH_EXTENSIONS 0 (length (new_legal 1%nat))
    (checkers_popcnt (make_move_new 1%nat 2%nat)) = 1%nat /\
  leaves_visited (ss_stats (snd (node_eval_recursive ToyRules.never_passed SEARCH_EXTENSIONS
                                   (fun _ => None) false 1%nat 1%nat f32_MIN f32_MAX true
                                   0%nat 0 0 ToyRules.empty_state))) = 2.
Proof.
  vm_compute; repeat split.
Qed.

(** The search of depth 3 from 5 with ALPHA_BETA and TRANSPOSITION_TABLE
    and a deadline passing at poll 50: its 12 polls all find the deadline
    not passed, and it returns an evaluation and the legal move 6. *)
Lemma search_complete_when_quiet_witness :
  let r := node_eval_recursive (fun n => (50 <=? n)%nat) 6 (fun _ => None) true
             5%nat 3%nat f32_MIN f32_MAX true 0%nat 0 0 ToyRules.empty_state in
  quiet_between (fun n => (50 <=? n)%nat) (ss_polls ToyRules.empty_state) (ss_polls (snd r)) /\
  eval (fst r) <> None /\
  (3%nat <> 0%nat -> new_legal 5%nat <> [] -> proposes_legal_move 5%nat (next_action (fst r))).
Proof.
  intros r.
  assert (Hq : quiet_between (fun n => (50 <=? n)%nat) (ss_polls ToyRules.empty_state)
                 (ss_polls (snd r))).
  { intros k Hk.
    assert (Hp : ss_polls (snd r) = 12%nat) by (vm_compute; reflexivity).
    rewrite Hp in Hk; apply Nat.leb_gt; lia. }
  split; [exact Hq|].
  exact (search_complete_when_quiet (fun n => (50 <=? n)%nat) 6 (fun _ => None) true
           5%nat 3%nat f32_MIN f32_MAX true 0%nat 0 0 ToyRules.empty_state Hq).
Defined.

(** The iterative deepening from 5, with the deadline passing at poll 30,
    plays 6, a legal move of 5. *)
Lemma played_move_legal_witness :
  returned_action (next_action_iterative_deepening (fun n => (30 <=? n)%nat)
                     (mkAlgorithm 6 (fun _ => None) (fun _ => None)) 5%nat 0%nat)
    = Some (MakeMove 6%nat) /\
  In 6%nat (new_legal 5%nat).
Proof.
  assert (H : returned_action (next_action_iterative_deepening (fun n => (30 <=? n)%nat)
                                 (mkAlgorithm 6 (fun _ => None) (fun _ => None)) 5%nat 0%nat)
              = Some (MakeMove 6%nat)) by (vm_compute; reflexivity).
  split; [exact H|].
  exact (played_move_legal (fun n => (30 <=? n)%nat)
           (mkAlgorithm 6 (fun _ => None) (fun _ => None)) 5%nat 0%nat 6%nat H).
Defined.

(** The clock passing at poll 30 stays passed, 5 has legal moves, and the
    iterative deepening from 5 returns a legal move. *)
Lemma next_action_never_panics_witness :
  monotone_clock (fun n => (30 <=? n)%nat) /\ new_legal 5%nat <> [] /\
  exists m, In m (new_legal 5%nat) /\
    returned_action (next_action_iterative_deepening (fun n => (30 <=? n)%nat)
                       (mkAlgorithm 6 (fun _ => None) (fun _ => None)) 5%nat 0%nat)
      = Some (if 3 <=? get_or0 (board_played_times
                                   (entry_engine (mkAlgorithm 6 (fun _ => None) (fun _ => None))
                                      5%nat)) (make_move_new 5%nat m)
              then DeclareDraw else MakeMove m).
Proof.
  assert (Hm : monotone_clock (fun n => (30 <=? n)%nat)).
  { intros n m Hnm H; apply Nat.leb_le in H; apply Nat.leb_le; lia. }
  assert (Hl : new_legal 5%nat <> []) by discriminate.
  split; [exact Hm|]; split; [exact Hl|].
  exact (next_action_never_panics (fun n => (30 <=? n)%nat)
           (mkAlgorithm 6 (fun _ => None) (fun _ => None)) 5%nat 0%nat Hm Hl).
Defined.

(** C6 from 1 (one legal move, to 2) with SEARCH_EXTENSIONS: a child search
    that answers only at depth 1 (the extended child depth [1 - 1 + 1]) and
    returns nothing elsewhere gives the same depth-1 search from 1. *)
Lemma search_extension_rule_witness :
  let rec : @Recurse nat nat :=
    fun nb d a b ne w bl st =>
      if (d =? 1)%nat
      then node_eval_recursive_fuel ToyRules.never_passed 3 SEARCH_EXTENSIONS (fun _ => None)
             false nb d a b false ne w bl st
      else (empty_evaluation, st) in
  (forall m a b w bl st, In m (new_legal 1%nat) ->
     let e := extend_by SEARCH_EXTENSIONS 0 (length (new_legal 1%nat))
                (checkers_popcnt (make_move_new 1%nat m)) in
     rec (make_move_new 1%nat m) (1 - 1 + e)%nat a b (0 + e)%nat w bl st =
     node_eval_recursive_fuel ToyRules.never_passed 3 SEARCH_EXTENSIONS (fun _ => None) false
       (make_move_new 1%nat m) (1 - 1 + e)%nat a b false (0 + e)%nat w bl st) /\
  node_eval_recursive_fuel ToyRules.never_passed 4 SEARCH_EXTENSIONS (fun _ => None) false
    1%nat 1%nat f32_MIN f32_MAX true 0%nat 0 0 ToyRules.empty_state =
  node_eval_step ToyRules.never_passed rec SEARCH_EXTENSIONS (fun _ => None) false
    1%nat 1%nat f32_MIN f32_MAX 0%nat 0 0 ToyRules.empty_state.
Proof.
  intros rec.
  assert (H : forall m a b w bl st, In m (new_legal 1%nat) ->
     let e := extend_by SEARCH_EXTENSIONS 0 (length (new_legal 1%nat))
                (checkers_popcnt (make_move_new 1%nat m)) in
     rec (make_move_new 1%nat m) (1 - 1 + e)%nat a b (0 + e)%nat w bl st =
     node_eval_recursive_fuel ToyRules.never_passed 3 SEARCH_EXTENSIONS (fun _ => None) false
       (make_move_new 1%nat m) (1 - 1 + e)%nat a b false (0 + e)%nat w bl st).
  { intros m a b w bl st Hm; simpl in Hm; destruct Hm as [<-|[]]; reflexivity. }
  split; [exact H|].
  exact (proj1 (search_extension_rule ToyRules.never_passed 3 SEARCH_EXTENSIONS (fun _ => None)
                  false 1%nat 1%nat f32_MIN f32_MAX true 0%nat 0 0 ToyRules.empty_state rec H)).
Defined.
